(** * src/App.tsx: the transcript accumulator and the session life cycle

    A shallow embedding of the [App] component of the voice chat client:
    the React state ([isConnected], [messages], [error]), the refs that
    [App] keeps across renders, the handlers [updateMessage],
    [downloadTranscript], [connect], [disconnect], and the four callbacks
    handed to [live.connect].

    Modelling conventions.
    - A JavaScript string is the list of its UTF-16 code units.
    - [null]/[undefined] is [None]; a ref is the value of its [.current].
    - [setMessages (prev => ...)] is applied at once: every updater in the
      file is a pure function of [prev], and React applies queued updaters
      in the order of the calls.
    - An [async] handler is cut at its [await]s into phases; a phase ends
      in [Done], [Await] (suspended, to be resumed by the event loop) or
      [Threw] (the promise of the handler rejects).
    - What the environment decides ([Date.now], [Math.random], whether a
      promise is fulfilled) is an input of the model. *)

From Stdlib Require Import Strings.String Strings.Ascii NArith.
From Stdlib Require DecimalPos.
From Stdlib Require QArith Lqa.
From stdpp Require Import base option numbers list.

Local Open Scope N_scope.

(** ** JavaScript strings *)

Module Js.

Definition jsstring : Type := list N.

(** An ASCII literal of the source as code units. *)
Definition lit (s : string) : jsstring :=
  (fun a => N_of_ascii a) <$> list_ascii_of_string s.

(** [ToBoolean] on a string: only the empty string is falsy. *)
Definition truthy (s : jsstring) : bool :=
  match s with [] => false | _ :: _ => true end.

(** [ToBoolean] on [string | null | undefined]. *)
Definition truthy_opt (o : option jsstring) : bool :=
  match o with None => false | Some s => truthy s end.

(** ECMAScript [WhiteSpace] and [LineTerminator] code points: what
    [String.prototype.trim] strips. *)
Definition isWhiteSpace (c : N) : bool :=
  ((9 <=? c) && (c <=? 13)) || (c =? 32) || (c =? 160) || (c =? 5760)
  || ((8192 <=? c) && (c <=? 8202)) || (c =? 8232) || (c =? 8233)
  || (c =? 8239) || (c =? 8287) || (c =? 12288) || (c =? 65279).

Fixpoint trimStart (s : jsstring) : jsstring :=
  match s with
  | [] => []
  | c :: s' => if isWhiteSpace c then trimStart s' else s
  end.

Definition trimEnd (s : jsstring) : jsstring := rev (trimStart (rev s)).

Definition trim (s : jsstring) : jsstring := trimEnd (trimStart s).

(** [s] holds a character that [trim] keeps. *)
Definition hasInk (s : jsstring) : bool := existsb (fun c => negb (isWhiteSpace c)) s.

(** [Array.prototype.join]. *)
Fixpoint join (sep : jsstring) (parts : list jsstring) : jsstring :=
  match parts with
  | [] => []
  | [p] => p
  | p :: rest => p ++ sep ++ join sep rest
  end.

(** [Array.prototype.findIndex]; [None] is the source's [-1]. *)
Fixpoint findIndex {A} (p : A -> bool) (l : list A) : option nat :=
  match l with
  | [] => None
  | x :: l' => if p x then Some O else S <$> findIndex p l'
  end.

(** Decimal digits of a number, most significant first. *)
Fixpoint digits (d : Decimal.uint) : jsstring :=
  match d with
  | Decimal.Nil => []
  | Decimal.D0 d => 48 :: digits d
  | Decimal.D1 d => 49 :: digits d
  | Decimal.D2 d => 50 :: digits d
  | Decimal.D3 d => 51 :: digits d
  | Decimal.D4 d => 52 :: digits d
  | Decimal.D5 d => 53 :: digits d
  | Decimal.D6 d => 54 :: digits d
  | Decimal.D7 d => 55 :: digits d
  | Decimal.D8 d => 56 :: digits d
  | Decimal.D9 d => 57 :: digits d
  end.

(** [Number.prototype.toString] on a non-negative integer. *)
Definition numberToString (n : N) : jsstring := digits (N.to_uint n).

(** [s.slice(0, n)]. *)
Definition slice0 (n : nat) (s : jsstring) : jsstring := take n s.

(** [s.replace(/:/g, '-')]. *)
Definition replaceColons (s : jsstring) : jsstring :=
  (fun c => if c =? 58 then 45 else c) <$> s.

End Js.
Import Js.

(** ** Types (lines 19-25) *)

Inductive Role := user | model.

Global Instance Role_eq_dec : EqDecision Role.
Proof. solve_decision. Defined.

Record Message := mkMessage {
  id : jsstring;
  role : Role;
  text : jsstring;
  isPartial : bool
}.

Global Instance Message_eq_dec : EqDecision Message.
Proof. solve_decision. Defined.

(** The server message, as far as [onmessage] reads it: every field is
    optional in the SDK's type; an absent flag is [false]. *)
Record Transcription := mkTranscription { tr_text : option jsstring }.

Record ServerContent := mkServerContent {
  inputTranscription : option Transcription;
  outputTranscription : option Transcription;
  turnComplete : bool;
  interrupted : bool
}.

Record LiveServerMessage := mkLiveServerMessage {
  serverContent : option ServerContent
}.

(** ** Refs and state of [App] (lines 37-54) *)

(** [activeMessageIds.current]. *)
Record ActiveIds := mkActiveIds {
  ids_user : option jsstring;
  ids_model : option jsstring
}.

(** What [Date.now()] and [Math.random().toString(36).substring(2, 9)]
    return at one call of line 80. *)
Record IdSeed := mkIdSeed { now : N; random36 : jsstring }.

(** What the component does to the outside, in the order it does it. *)
Inductive Effect :=
| SetError (e : option jsstring)
| NewAudioContext (h : nat)
| ContextResume
| GetUserMedia
| LiveConnect (n : nat)
| CreateNodes
| ContextClose
| SourceDisconnect
| ProcessorDisconnect
| SessionClose (n : nat)
| Download (content filename : jsstring).

(** The [await]s of [connect] and [disconnect]. *)
Inductive Task :=
| ConnectAwaitResume          (* line 145 *)
| ConnectAwaitUserMedia       (* line 153 *)
| DisconnectAwaitContextClose (* line 265 *)
| DisconnectAwaitSession (n : nat) (* line 274 *).

(** [isConnected], [messages], [error] are the [useState] cells, the
    [...Ref] fields the [useRef] cells.  [aiRef] is [Some key] for a client
    built from [key].  [sessionRef] and [inputContextRef] name the promise
    and the context they hold by the length of the trace at their creation.
    The last four fields are the world around the component: the values
    line 80 will draw, how many were drawn, the effects so far, and the
    suspended [async] calls. *)
Record State := mkState {
  isConnected : bool;
  messages : list Message;
  error : option jsstring;
  aiRef : option jsstring;
  sessionRef : option nat;
  inputContextRef : option nat;
  sourceNodeRef : bool;
  processorNodeRef : bool;
  inputAnalyserRef : bool;
  currentInputTextRef : jsstring;
  currentOutputTextRef : jsstring;
  activeMessageIds : ActiveIds;
  entropy : nat -> IdSeed;
  idsDrawn : nat;
  trace : list Effect;
  pending : list Task
}.

Definition put_isConnected (v : bool) (s : State) : State :=
  mkState v (messages s) (error s) (aiRef s) (sessionRef s)
    (inputContextRef s) (sourceNodeRef s) (processorNodeRef s)
    (inputAnalyserRef s) (currentInputTextRef s) (currentOutputTextRef s)
    (activeMessageIds s) (entropy s) (idsDrawn s) (trace s) (pending s).

Definition put_messages (v : list Message) (s : State) : State :=
  mkState (isConnected s) v (error s) (aiRef s) (sessionRef s)
    (inputContextRef s) (sourceNodeRef s) (processorNodeRef s)
    (inputAnalyserRef s) (currentInputTextRef s) (currentOutputTextRef s)
    (activeMessageIds s) (entropy s) (idsDrawn s) (trace s) (pending s).

Definition put_error (v : option jsstring) (s : State) : State :=
  mkState (isConnected s) (messages s) v (aiRef s) (sessionRef s)
    (inputContextRef s) (sourceNodeRef s) (processorNodeRef s)
    (inputAnalyserRef s) (currentInputTextRef s) (currentOutputTextRef s)
    (activeMessageIds s) (entropy s) (idsDrawn s) (trace s) (pending s).

Definition set_aiRef (v : option jsstring) (s : State) : State :=
  mkState (isConnected s) (messages s) (error s) v (sessionRef s)
    (inputContextRef s) (sourceNodeRef s) (processorNodeRef s)
    (inputAnalyserRef s) (currentInputTextRef s) (currentOutputTextRef s)
    (activeMessageIds s) (entropy s) (idsDrawn s) (trace s) (pending s).

Definition set_sessionRef (v : option nat) (s : State) : State :=
  mkState (isConnected s) (messages s) (error s) (aiRef s) v
    (inputContextRef s) (sourceNodeRef s) (processorNodeRef s)
    (inputAnalyserRef s) (currentInputTextRef s) (currentOutputTextRef s)
    (activeMessageIds s) (entropy s) (idsDrawn s) (trace s) (pending s).

Definition set_inputContextRef (v : option nat) (s : State) : State :=
  mkState (isConnected s) (messages s) (error s) (aiRef s) (sessionRef s) v
    (sourceNodeRef s) (processorNodeRef s) (inputAnalyserRef s)
    (currentInputTextRef s) (currentOutputTextRef s) (activeMessageIds s)
    (entropy s) (idsDrawn s) (trace s) (pending s).

Definition set_sourceNodeRef (v : bool) (s : State) : State :=
  mkState (isConnected s) (messages s) (error s) (aiRef s) (sessionRef s)
    (inputContextRef s) v (processorNodeRef s) (inputAnalyserRef s)
    (currentInputTextRef s) (currentOutputTextRef s) (activeMessageIds s)
    (entropy s) (idsDrawn s) (trace s) (pending s).

Definition set_processorNodeRef (v : bool) (s : State) : State :=
  mkState (isConnected s) (messages s) (error s) (aiRef s) (sessionRef s)
    (inputContextRef s) (sourceNodeRef s) v (inputAnalyserRef s)
    (currentInputTextRef s) (currentOutputTextRef s) (activeMessageIds s)
    (entropy s) (idsDrawn s) (trace s) (pending s).

Definition set_inputAnalyserRef (v : bool) (s : State) : State :=
  mkState (isConnected s) (messages s) (error s) (aiRef s) (sessionRef s)
    (inputContextRef s) (sourceNodeRef s) (processorNodeRef s) v
    (currentInputTextRef s) (currentOutputTextRef s) (activeMessageIds s)
    (entropy s) (idsDrawn s) (trace s) (pending s).

Definition set_currentInputTextRef (v : jsstring) (s : State) : State :=
  mkState (isConnected s) (messages s) (error s) (aiRef s) (sessionRef s)
    (inputContextRef s) (sourceNodeRef s) (processorNodeRef s)
    (inputAnalyserRef s) v (currentOutputTextRef s) (activeMessageIds s)
    (entropy s) (idsDrawn s) (trace s) (pending s).

Definition set_currentOutputTextRef (v : jsstring) (s : State) : State :=
  mkState (isConnected s) (messages s) (error s) (aiRef s) (sessionRef s)
    (inputContextRef s) (sourceNodeRef s) (processorNodeRef s)
    (inputAnalyserRef s) (currentInputTextRef s) v (activeMessageIds s)
    (entropy s) (idsDrawn s) (trace s) (pending s).

Definition set_activeMessageIds (v : ActiveIds) (s : State) : State :=
  mkState (isConnected s) (messages s) (error s) (aiRef s) (sessionRef s)
    (inputContextRef s) (sourceNodeRef s) (processorNodeRef s)
    (inputAnalyserRef s) (currentInputTextRef s) (currentOutputTextRef s) v
    (entropy s) (idsDrawn s) (trace s) (pending s).

Definition set_idsDrawn (v : nat) (s : State) : State :=
  mkState (isConnected s) (messages s) (error s) (aiRef s) (sessionRef s)
    (inputContextRef s) (sourceNodeRef s) (processorNodeRef s)
    (inputAnalyserRef s) (currentInputTextRef s) (currentOutputTextRef s)
    (activeMessageIds s) (entropy s) v (trace s) (pending s).

Definition set_trace (v : list Effect) (s : State) : State :=
  mkState (isConnected s) (messages s) (error s) (aiRef s) (sessionRef s)
    (inputContextRef s) (sourceNodeRef s) (processorNodeRef s)
    (inputAnalyserRef s) (currentInputTextRef s) (currentOutputTextRef s)
    (activeMessageIds s) (entropy s) (idsDrawn s) v (pending s).

Definition set_pending (v : list Task) (s : State) : State :=
  mkState (isConnected s) (messages s) (error s) (aiRef s) (sessionRef s)
    (inputContextRef s) (sourceNodeRef s) (processorNodeRef s)
    (inputAnalyserRef s) (currentInputTextRef s) (currentOutputTextRef s)
    (activeMessageIds s) (entropy s) (idsDrawn s) (trace s) v.

Definition emit (e : Effect) (s : State) : State := set_trace (trace s ++ [e]) s.

(** The three [useState] setters. *)
Definition setIsConnected (v : bool) (s : State) : State := put_isConnected v s.

Definition setError (e : option jsstring) (s : State) : State :=
  emit (SetError e) (put_error e s).

Definition setMessages (f : list Message -> list Message) (s : State) : State :=
  put_messages (f (messages s)) s.

(** [activeMessageIds.current[role]], read and written. *)
Definition activeId (r : Role) (a : ActiveIds) : option jsstring :=
  match r with user => ids_user a | model => ids_model a end.

Definition setActiveId (r : Role) (v : option jsstring) (a : ActiveIds) : ActiveIds :=
  match r with
  | user => mkActiveIds v (ids_model a)
  | model => mkActiveIds (ids_user a) v
  end.

(** [currentInputTextRef] for the user, [currentOutputTextRef] for the model. *)
Definition buffer (r : Role) (s : State) : jsstring :=
  match r with user => currentInputTextRef s | model => currentOutputTextRef s end.

Definition set_buffer (r : Role) (v : jsstring) (s : State) : State :=
  match r with
  | user => set_currentInputTextRef v s
  | model => set_currentOutputTextRef v s
  end.

(** The state before the mount effect: the initial values of lines 38-54. *)
Definition initialState (e : nat -> IdSeed) : State :=
  mkState false [] None None None None false false false [] []
    (mkActiveIds None None) e 0%nat [] [].

(** ** Initialize AI (lines 66-72) *)

Definition initAI (apiKey : option jsstring) (s : State) : State :=
  if truthy_opt apiKey then set_aiRef apiKey s
  else setError (Some (lit "API Key is missing.")) s.

Definition mount (apiKey : option jsstring) (e : nat -> IdSeed) : State :=
  initAI apiKey (initialState e).

(** ** updateMessage (lines 74-113) *)

(** Line 80. *)
Definition makeId (seed : IdSeed) : jsstring :=
  numberToString (now seed) ++ random36 seed.

(** The updater given to [setMessages], lines 86-107. *)
Definition upsert (targetId : jsstring) (rl : Role) (txt : jsstring)
    (isFinal : bool) (prev : list Message) : list Message :=
  match findIndex (fun m => bool_decide (id m = targetId)) prev with
  | Some msgIndex =>
      match prev !! msgIndex with
      | Some m => <[msgIndex := mkMessage (id m) (role m) txt (negb isFinal)]> prev
      | None => prev
      end
  | None => prev ++ [mkMessage targetId rl txt (negb isFinal)]
  end.

Definition updateMessage (rl : Role) (txt : jsstring) (isFinal : bool)
    (s : State) : State :=
  let targetId := activeId rl (activeMessageIds s) in
  let '(targetId, s) :=
    if negb (truthy_opt targetId) && truthy (trim txt) then
      let fresh := makeId (entropy s (idsDrawn s)) in
      (Some fresh,
       set_activeMessageIds (setActiveId rl (Some fresh) (activeMessageIds s))
         (set_idsDrawn (S (idsDrawn s)) s))
    else (targetId, s) in
  match targetId with
  | None => s
  | Some tid =>
      if truthy tid then
        let s := setMessages (upsert tid rl txt isFinal) s in
        if isFinal
        then set_activeMessageIds (setActiveId rl None (activeMessageIds s)) s
        else s
      else s
  end.

(** ** downloadTranscript (lines 115-132) *)

Definition block (msg : Message) : jsstring :=
  let r := match role msg with user => lit "User" | model => lit "AI" end in
  lit "[" ++ r ++ lit "]: " ++ text msg.

(** Lines 118-121; [[10; 10]] is the separator ['\n\n']. *)
Definition transcriptContent (msgs : list Message) : jsstring :=
  join [10; 10] (block <$> msgs).

(** [isoNow] is [new Date().toISOString()]. *)
Definition transcriptName (isoNow : jsstring) : jsstring :=
  lit "transcript_" ++ replaceColons (slice0 19 isoNow) ++ lit ".txt".

Definition downloadTranscript (isoNow : jsstring) (s : State) : State :=
  match messages s with
  | [] => s
  | _ :: _ =>
      emit (Download (transcriptContent (messages s)) (transcriptName isoNow)) s
  end.

(** ** The callbacks of the session (lines 173-248) and disconnect (260-283) *)

Inductive Progress :=
| Done (s : State)
| Await (t : Task) (s : State)
| Threw (s : State).

(** How an awaited promise is settled. *)
Inductive Settled := Fulfilled | Rejected (message : option jsstring).

(** A call that is not awaited: a suspended call joins [pending], a
    rejection goes unhandled. *)
Definition spawn (p : Progress) : State :=
  match p with
  | Done s => s
  | Await t s => set_pending (pending s ++ [t]) s
  | Threw s => s
  end.

(** Lines 279-282. *)
Definition disconnect_reset (s : State) : State :=
  set_activeMessageIds (mkActiveIds None None)
    (set_currentOutputTextRef [] (set_currentInputTextRef [] s)).

(** Lines 273-282, up to the [await] of line 274. *)
Definition disconnect_closeSession (s : State) : Progress :=
  match sessionRef s with
  | Some n => Await (DisconnectAwaitSession n) s
  | None => Done (disconnect_reset s)
  end.

(** Lines 268-282: the code after the [try] of line 265, whether
    [close()] was fulfilled or its rejection caught and logged. *)
Definition disconnect_stopTracks (s : State) : Progress :=
  let s := if sourceNodeRef s then emit SourceDisconnect s else s in
  let s := if processorNodeRef s then emit ProcessorDisconnect s else s in
  disconnect_closeSession s.

(** Lines 261-265, and on when there is no context to close. *)
Definition disconnect (s : State) : Progress :=
  let s := setIsConnected false s in
  match inputContextRef s with
  | Some _ => Await DisconnectAwaitContextClose (emit ContextClose s)
  | None => disconnect_stopTracks s
  end.

(** Lines 275-282, after the [await] of line 274 on promise [n]: a
    rejected promise makes the [await] throw, out of [disconnect], which
    has no [try] there.  [session.close()] closes a web socket and is
    taken not to throw. *)
Definition disconnect_afterSession (n : nat) (o : Settled) (s : State) : Progress :=
  match o with
  | Fulfilled => Done (disconnect_reset (set_sessionRef None (emit (SessionClose n) s)))
  | Rejected _ => Threw s
  end.

(** Lines 200-206 for the user, 208-214 for the model. *)
Definition onTranscription (r : Role) (tr : option Transcription) (s : State) : State :=
  match tr with
  | Some (mkTranscription (Some txt)) =>
      if truthy txt then
        let s := set_buffer r (buffer r s ++ txt) s in
        updateMessage r (buffer r s) false s
      else s
  | _ => s
  end.

(** Lines 218-221 for the user, 222-225 for the model. *)
Definition commitTurn (r : Role) (s : State) : State :=
  if truthy (buffer r s) then
    set_buffer r [] (updateMessage r (buffer r s) true s)
  else s.

(** Lines 216-226. *)
Definition onTurnComplete (s : State) : State :=
  commitTurn model (commitTurn user s).

(** The marker of line 234. *)
Definition interruptionMarker : jsstring := lit " ...".

(** Lines 233-236. *)
Definition onInterrupted (s : State) : State :=
  if truthy (currentOutputTextRef s) then
    set_currentOutputTextRef []
      (updateMessage model (currentOutputTextRef s ++ interruptionMarker) true s)
  else s.

(** Lines 198-238. *)
Definition onmessage (msg : LiveServerMessage) (s : State) : State :=
  match serverContent msg with
  | None => s
  | Some sc =>
      let s := onTranscription user (inputTranscription sc) s in
      let s := onTranscription model (outputTranscription sc) s in
      let s := if turnComplete sc then onTurnComplete s else s in
      if interrupted sc then onInterrupted s else s
  end.

(** Lines 173-197. *)
Definition onopen (s : State) : State :=
  let s := setIsConnected true s in
  match inputContextRef s with
  | None => s
  | Some _ => emit CreateNodes (set_processorNodeRef true (set_sourceNodeRef true s))
  end.

(** Lines 239-242. *)
Definition onclose (s : State) : State := setIsConnected false s.

(** Lines 243-247; [message] is [err.message]. *)
Definition onerror (message : option jsstring) (s : State) : State :=
  let shown :=
    if truthy_opt message then message
    else Some (lit "Connection error. Please try again.") in
  spawn (disconnect (setError shown s)).

(** ** connect (lines 134-258) *)

(** What the browser decides at lines 141 and 144: whether the
    constructor throws (and the [message] of what it throws), and whether
    the new context starts suspended. *)
Record ConnectEnv := mkConnectEnv {
  constructorThrows : option (option jsstring);
  startsSuspended : bool
}.

(** Lines 253-257. *)
Definition connect_catch (message : option jsstring) (s : State) : Progress :=
  Done (spawn (disconnect (setError message s))).

(** Lines 148-161, up to the [await] of line 153. *)
Definition connect_getUserMedia (s : State) : Progress :=
  Await ConnectAwaitUserMedia (emit GetUserMedia (set_inputAnalyserRef true s)).

(** Lines 135-146. *)
Definition connect (env : ConnectEnv) (s : State) : Progress :=
  match aiRef s with
  | None => Done s
  | Some _ =>
      let s := setError None s in
      match constructorThrows env with
      | Some message => connect_catch message s
      | None =>
          let h := length (trace s) in
          let s := emit (NewAudioContext h) (set_inputContextRef (Some h) s) in
          if startsSuspended env
          then Await ConnectAwaitResume (emit ContextResume s)
          else connect_getUserMedia s
      end
  end.

(** After the [await] of line 145. *)
Definition connect_afterResume (o : Settled) (s : State) : Progress :=
  match o with
  | Fulfilled => connect_getUserMedia s
  | Rejected message => connect_catch message s
  end.

(** Lines 163-251, after the [await] of line 153. *)
Definition connect_afterUserMedia (o : Settled) (s : State) : Progress :=
  match o with
  | Fulfilled =>
      let n := length (trace s) in
      Done (set_sessionRef (Some n) (emit (LiveConnect n) s))
  | Rejected message => connect_catch message s
  end.

(** ** The event loop *)

Inductive Event :=
| ClickConnect (env : ConnectEnv)
| ClickDisconnect
| ClickDownload (isoNow : jsstring)
| Resume (k : nat) (o : Settled)
| OnOpen
| OnMessage (msg : LiveServerMessage)
| OnClose
| OnError (message : option jsstring).

Definition resume (t : Task) (o : Settled) (s : State) : Progress :=
  match t with
  | ConnectAwaitResume => connect_afterResume o s
  | ConnectAwaitUserMedia => connect_afterUserMedia o s
  | DisconnectAwaitContextClose => disconnect_stopTracks s
  | DisconnectAwaitSession n => disconnect_afterSession n o s
  end.

Definition isLiveConnect (e : Effect) : bool :=
  match e with LiveConnect _ => true | _ => false end.

(** A session callback can only fire once [live.connect] was called. *)
Definition sessionOpened (s : State) : bool := existsb isLiveConnect (trace s).

(** One turn of the event loop; [None] when the event cannot happen in [s]. *)
Definition step (ev : Event) (s : State) : option State :=
  match ev with
  | ClickConnect env => Some (spawn (connect env s))
  | ClickDisconnect => Some (spawn (disconnect s))
  | ClickDownload isoNow => Some (downloadTranscript isoNow s)
  | Resume k o =>
      match pending s !! k with
      | Some t => Some (spawn (resume t o (set_pending (delete k (pending s)) s)))
      | None => None
      end
  | OnOpen => if sessionOpened s then Some (onopen s) else None
  | OnMessage msg => if sessionOpened s then Some (onmessage msg s) else None
  | OnClose => if sessionOpened s then Some (onclose s) else None
  | OnError message => if sessionOpened s then Some (onerror message s) else None
  end.

Fixpoint run (evs : list Event) (s : State) : option State :=
  match evs with
  | [] => Some s
  | ev :: evs' =>
      match step ev s with
      | Some s' => run evs' s'
      | None => None
      end
  end.

(** ** Vocabulary of the statements *)

Definition otherRole (r : Role) : Role :=
  match r with user => model | model => user end.

(** A server message that carries a transcription for [r] and nothing
    else; [txt] is its [text] field. *)
Definition transcriptionMsg (r : Role) (txt : option jsstring) : LiveServerMessage :=
  mkLiveServerMessage (Some
    match r with
    | user => mkServerContent (Some (mkTranscription txt)) None false false
    | model => mkServerContent None (Some (mkTranscription txt)) false false
    end).

Definition fragmentMsg (r : Role) (f : jsstring) : LiveServerMessage :=
  transcriptionMsg r (Some f).

(** The turn-complete and the interruption signal on their own. *)
Definition turnCompleteMsg : LiveServerMessage :=
  mkLiveServerMessage (Some (mkServerContent None None true false)).

Definition interruptedMsg : LiveServerMessage :=
  mkLiveServerMessage (Some (mkServerContent None None false true)).

(** The fragments [fs] of one turn of [r], handled in arrival order. *)
Definition deliver (r : Role) (fs : list jsstring) (s : State) : State :=
  foldl (fun s f => onmessage (fragmentMsg r f) s) s fs.

(** The messages of [r] that are still in progress. *)
Definition inProgress (r : Role) (l : list Message) : list Message :=
  filter (fun m => role m = r ∧ isPartial m = true) l.

(** The id that line 80 yields at its next run. *)
Definition nextId (s : State) : jsstring := makeId (entropy s (idsDrawn s)).

(** [tid] is not the id of a message of [l]. *)
Definition unused (tid : jsstring) (l : list Message) : Prop :=
  findIndex (fun m => bool_decide (id m = tid)) l = None.

(** Both buffers empty, both trackers [null]. *)
Definition cleared (s : State) : Prop :=
  currentInputTextRef s = [] ∧ currentOutputTextRef s = [] ∧
  activeMessageIds s = mkActiveIds None None.

(** The state a call leaves behind when it ends or is suspended. *)
Definition stateOf (p : Progress) : State :=
  match p with Done s | Await _ s | Threw s => s end.

(** A call at progress [p] runs to its end in state [s']: at each
    [await] the event loop handles any events that can happen, then
    resumes the call with the awaited promise settled either way. *)
Inductive completes : Progress -> State -> Prop :=
| completes_done s : completes (Done s) s
| completes_await t s evs s1 o s' :
    run evs s = Some s1 ->
    completes (resume t o s1) s' ->
    completes (Await t s) s'.

(** A suspended call resumed at once with the awaited promise fulfilled. *)
Definition fulfilled (p : Progress) : Progress :=
  match p with
  | Await t s => resume t Fulfilled s
  | _ => p
  end.

(** The progress of a call of [disconnect]: ended with the reset of
    lines 279-282 done, or suspended at one of its two [await]s. *)
Definition inDisconnect (p : Progress) : Prop :=
  match p with
  | Done s => cleared s
  | Await DisconnectAwaitContextClose _ => True
  | Await (DisconnectAwaitSession _) _ => True
  | Await _ _ => False
  | Threw _ => True
  end.

(** What a message is once it is in the list: its id and its role. *)
Definition identity (m : Message) : jsstring * Role := (id m, role m).

(** How one call of [setMessages] may differ from the list before. *)
Inductive listChange (old new : list Message) : Prop :=
| change_none : new = old -> listChange old new
| change_push m : unused (id m) old -> new = old ++ [m] -> listChange old new
| change_rewrite i m txt partial :
    old !! i = Some m ->
    new = <[i := mkMessage (id m) (role m) txt partial]> old ->
    listChange old new.

(** The separator of line 121 and the two prefixes of line 120. *)
Definition blankLine : jsstring := [10; 10].

Definition label (r : Role) : jsstring :=
  match r with user => lit "[User]: " | model => lit "[AI]: " end.

Definition missingKey : jsstring := lit "API Key is missing.".

(** [s'] differs from [s] at most in the transcript: the list, the two
    buffers, the trackers and the number of ids drawn. *)
Definition sameSession (s s' : State) : Prop :=
  isConnected s' = isConnected s ∧ error s' = error s ∧ aiRef s' = aiRef s ∧
  sessionRef s' = sessionRef s ∧ inputContextRef s' = inputContextRef s ∧
  sourceNodeRef s' = sourceNodeRef s ∧ processorNodeRef s' = processorNodeRef s ∧
  inputAnalyserRef s' = inputAnalyserRef s ∧ entropy s' = entropy s ∧
  trace s' = trace s ∧ pending s' = pending s.

(** Where a turn of [r] stands that began on the list [l0] and whose
    message has, or will have, the id [tid]: once the buffer holds ink the
    message is the last of the list and carries the buffer; before that
    nothing was added and [tid] is the id to be drawn. *)
Definition turnState (r : Role) (l0 : list Message) (tid : jsstring) (s : State) : Prop :=
  if hasInk (buffer r s)
  then messages s = l0 ++ [mkMessage tid r (buffer r s) true] ∧
       activeId r (activeMessageIds s) = Some tid
  else messages s = l0 ∧ activeId r (activeMessageIds s) = None ∧ nextId s = tid.

(** No two draws of line 80 give the same id. *)
Definition distinctIds (e : nat -> IdSeed) : Prop :=
  forall i j : nat, makeId (e i) = makeId (e j) -> i = j.

(** What holds of every state the component reaches when ids are
    distinct: ids in the list are pairwise different and were drawn
    before; an active id names an in-progress message of its role whose
    text is the role's buffer; without an active id the buffer holds
    white space only. *)
Record consistent (s : State) : Prop := mkConsistent {
  ids_nodup : NoDup (id <$> messages s);
  ids_drawn : forall m, m ∈ messages s ->
    exists k, (k < idsDrawn s)%nat ∧ id m = makeId (entropy s k);
  ids_active : forall r,
    match activeId r (activeMessageIds s) with
    | Some tid =>
        mkMessage tid r (buffer r s) true ∈ messages s ∧
        hasInk (buffer r s) = true
    | None => hasInk (buffer r s) = false
    end
}.

(** [s'] has the list, the ids drawn and the entropy of [s], and for
    each role either the tracker and the buffer of [s] or the values after
    a reset: what every handler other than [onmessage] does to the
    transcript. *)
Definition calm (s s' : State) : Prop :=
  messages s' = messages s ∧ idsDrawn s' = idsDrawn s ∧ entropy s' = entropy s ∧
  forall r,
    (activeId r (activeMessageIds s') = activeId r (activeMessageIds s) ∧
     buffer r s' = buffer r s) ∨
    (activeId r (activeMessageIds s') = None ∧ hasInk (buffer r s') = false).

(** What the end of a turn of [r] does to one message of the list when
    the trackers are [a]: the message that the tracker of [r] names
    becomes final, with [suffix] added to its text; any other stays. *)
Definition settle (r : Role) (a : ActiveIds) (suffix : jsstring) (m : Message) : Message :=
  if bool_decide (role m = r ∧ activeId r a = Some (id m))
  then mkMessage (id m) (role m) (text m ++ suffix) false
  else m.

(** ** States and inputs of the examples *)

(** Ids "1700000000000", "1700000000000a", "1700000000000aa", ... *)
Definition exampleEntropy : nat -> IdSeed :=
  fun k => mkIdSeed 1700000000000 (replicate k 97).

Definition exampleKey : option jsstring := Some (lit "key").

(** Mounted with a key, connected, session open. *)
Definition exampleConnected : option State :=
  run [ClickConnect (mkConnectEnv None false); Resume 0 Fulfilled; OnOpen]
    (mount exampleKey exampleEntropy).

Definition exampleOpen : State :=
  default (mount exampleKey exampleEntropy) exampleConnected.

(** In the middle of a turn: one fragment each way. *)
Definition exampleMidTurn : State :=
  onmessage (fragmentMsg model (lit "hello"))
    (onmessage (fragmentMsg user (lit "salaam")) exampleOpen).

(** A turn of white space only, for either role. *)
Definition exampleBlankTurn (r : Role) : State :=
  deliver r [lit " "] exampleOpen.

(** A state reached after a remote error in the middle of a turn: one
    fragment each way, then [onerror], whose [disconnect] is suspended. *)
Definition exampleAfterError : option State :=
  s ← exampleConnected;
  run [OnMessage (fragmentMsg user (lit "salaam"));
       OnMessage (fragmentMsg model (lit "hello"));
       OnError None] s.

Definition exampleErrored : State :=
  default exampleOpen exampleAfterError.

(** After a call of [disconnect] on [exampleErrored] that was suspended
    twice, with other events handled in between. *)
Definition exampleDisconnected : State :=
  let s1 := stateOf (disconnect exampleErrored) in
  let s2 := default s1
    (run [Resume 0 Fulfilled; OnMessage (fragmentMsg user (lit "!"))] s1) in
  let s3 := stateOf (disconnect_stopTracks s2) in
  let s4 := default s3 (run [OnClose] s3) in
  stateOf (disconnect_afterSession 3 Fulfilled s4).

(** ** Vocabulary of the further properties *)


(** A server message with everything [onmessage] reads. *)
Definition serverMsg (input output : option Transcription)
    (complete interrupt : bool) : LiveServerMessage :=
  mkLiveServerMessage (Some (mkServerContent input output complete interrupt)).

(** The events that lead from the mount to an open session, and one
    finished turn of the user after them. *)
Definition exampleOpening : list Event :=
  [ClickConnect (mkConnectEnv None false); Resume 0 Fulfilled; OnOpen].

Definition exampleFirstTurn : list Event :=
  exampleOpening ++
  [OnMessage (fragmentMsg user (lit "salaam")); OnMessage turnCompleteMsg].

Definition exampleAfterTurn : State :=
  Eval vm_compute in
  default exampleOpen (run exampleFirstTurn (mount exampleKey exampleEntropy)).

(** More traffic after that turn: a second user turn cut by an
    interruption, an error, and the user's click on End Session. *)
Definition exampleLaterEvents : list Event :=
  [OnMessage (fragmentMsg user (lit "more"));
   OnMessage (fragmentMsg model (lit "hi"));
   OnMessage interruptedMsg; OnError None; ClickDisconnect].

Definition exampleLater : State :=
  Eval vm_compute in
  default exampleAfterTurn (run exampleLaterEvents exampleAfterTurn).

(** ** The view (lines 285-401) *)

(** [String.prototype.startsWith] and [String.prototype.includes]. *)
Fixpoint startsWith (needle hay : jsstring) : bool :=
  match needle, hay with
  | [], _ => true
  | _ :: _, [] => false
  | c :: needle', d :: hay' => (c =? d) && startsWith needle' hay'
  end.

Fixpoint includes (needle hay : jsstring) : bool :=
  startsWith needle hay ||
  match hay with
  | [] => false
  | _ :: hay' => includes needle hay'
  end.

(** The [disabled] attribute of the Start button, line 374. *)
Definition connectDisabled (err : option jsstring) : bool :=
  match err with
  | None => false
  | Some e =>
      truthy e && negb (bool_decide (e = lit "Connection closed"))
      && negb (includes (lit "Connection") e)
  end.

(** The button of lines 371-390. *)
Inductive Action := StartListening (disabled : bool) | EndSession.

(** One entry of the transcript area, lines 333-349: the React key, the
    side it is drawn on, its text, and whether the cursor follows it. *)
Record Bubble := mkBubble {
  key : jsstring;
  side : Role;
  content : jsstring;
  cursor : bool
}.

(** What the component shows: the download button (line 301), the badge
    (312), the placeholder (319), the bubbles, the props of the visualizer
    (359), the button, and the error box (393-397). *)
Record View := mkView {
  downloadButton : bool;
  badge : jsstring;
  placeholder : bool;
  bubbles : list Bubble;
  visualizerActive : bool;
  visualizerAnalyser : bool;
  action : Action;
  errorBox : option jsstring
}.

Definition render (s : State) : View :=
  mkView
    (negb (bool_decide (messages s = [])))
    (if isConnected s then lit "Connected" else lit "Offline")
    (bool_decide (messages s = []) && negb (isConnected s))
    ((fun m => mkBubble (id m) (role m) (text m) (isPartial m)) <$> messages s)
    (isConnected s)
    (inputAnalyserRef s)
    (if isConnected s then EndSession
     else StartListening (connectDisabled (error s)))
    (match error s with
     | Some e => if truthy e then Some (lit "Error: " ++ e) else None
     | None => None
     end).

(** What the view lets the user click. *)
Definition permitted (ev : Event) (s : State) : bool :=
  match ev with
  | ClickConnect _ =>
      match action (render s) with StartListening false => true | _ => false end
  | ClickDisconnect =>
      match action (render s) with EndSession => true | _ => false end
  | ClickDownload _ => downloadButton (render s)
  | _ => true
  end.

Definition isDisconnectTask (t : Task) : bool :=
  match t with
  | DisconnectAwaitContextClose | DisconnectAwaitSession _ => true
  | _ => false
  end.

(** A click the view permits, or the resumption of a suspended
    [disconnect]: what can happen without a session callback and without
    a [connect] under way. *)
Definition userStep (ev : Event) (s : State) : option State :=
  match ev with
  | ClickConnect _ | ClickDisconnect | ClickDownload _ =>
      if permitted ev s then step ev s else None
  | Resume k _ =>
      match pending s !! k with
      | Some t => if isDisconnectTask t then step ev s else None
      | None => None
      end
  | _ => None
  end.

Fixpoint userRun (evs : list Event) (s : State) : option State :=
  match evs with
  | [] => Some s
  | ev :: evs' =>
      match userStep ev s with
      | Some s' => userRun evs' s'
      | None => None
      end
  end.

(** ** Counting what was acquired *)

Definition countIf {A} (p : A -> bool) (l : list A) : nat :=
  length (List.filter p l).

Definition isNewAudioContext (e : Effect) : bool :=
  match e with NewAudioContext _ => true | _ => false end.

Definition isGetUserMedia (e : Effect) : bool :=
  match e with GetUserMedia => true | _ => false end.

Definition isAwaitResume (t : Task) : bool :=
  match t with ConnectAwaitResume => true | _ => false end.

Definition isAwaitUserMedia (t : Task) : bool :=
  match t with ConnectAwaitUserMedia => true | _ => false end.

(** Audio contexts created, microphone requests made, sessions opened,
    and the calls of [connect] suspended before each of the last two. *)
Definition contextsCreated (s : State) : nat := countIf isNewAudioContext (trace s).
Definition microphoneRequests (s : State) : nat := countIf isGetUserMedia (trace s).
Definition sessionsOpened (s : State) : nat := countIf isLiveConnect (trace s).
Definition awaitingResume (s : State) : nat := countIf isAwaitResume (pending s).
Definition awaitingMicrophone (s : State) : nat := countIf isAwaitUserMedia (pending s).

(** The state after the user refused the microphone. *)
Definition exampleRefused : State :=
  default exampleOpen
    (run [ClickConnect (mkConnectEnv None false);
          Resume 0 (Rejected (Some (lit "Permission denied")))]
       (mount exampleKey exampleEntropy)).

(** Sessions are backed by microphone requests, and those by contexts. *)
Definition backed (s : State) : Prop :=
  (sessionsOpened s + awaitingMicrophone s <= microphoneRequests s)%nat ∧
  (microphoneRequests s + awaitingResume s <= contextsCreated s)%nat.

(** The progress of a call of [disconnect] that, once ended, holds no
    session. *)
Definition releasing (p : Progress) : Prop :=
  match p with
  | Done s => sessionRef s = None
  | Await DisconnectAwaitContextClose _ => True
  | Await (DisconnectAwaitSession _) _ => True
  | Await _ _ => False
  | Threw _ => True
  end.

(** ** components/Visualizer.tsx *)

(** Coordinates are rationals.  Every number the component computes is
    one a double holds exactly: half a byte, half of a hundred minus that,
    and, the bin count of an analyser being a power of two, 300 over it
    times 2.5 and the multiples of that plus one up to the bin count. *)
Module Visualizer.
Import QArith.QArith_base.

(** Lines 422-423. *)
Definition width : Q := 300%Q.
Definition height : Q := 100%Q.

(** What [draw] does to the canvas: [clearRect] and [fillRect] over the
    whole canvas, the stroked line, and one [roundRect] a bar. *)
Inductive CanvasOp :=
| ClearRect
| Line (x0 y0 x1 y1 : Q)
| FillRect
| RoundRect (x y w h : Q).

(** An element of the [Uint8Array] as a number. *)
Definition sample (d : N) : Q := inject_Z (Z.of_N d).

(** Line 445. *)
Definition barWidthOf (bufferLength : nat) : Q :=
  (width / inject_Z (Z.of_nat bufferLength) * (5 # 2))%Q.

(** The loop of lines 449-468, from [x] on. *)
Fixpoint bars (barWidth x : Q) (dataArray : list N) : list CanvasOp :=
  match dataArray with
  | [] => []
  | d :: rest =>
      let barHeight := (sample d / 2)%Q in
      let y := ((height - barHeight) / 2)%Q in
      RoundRect x y barWidth barHeight
      :: bars barWidth (x + (barWidth + 1))%Q rest
  end.

(** The [x] of the bar of index [i]. *)
Fixpoint xAt (barWidth x : Q) (i : nat) : Q :=
  match i with
  | O => x
  | S i' => xAt barWidth (x + (barWidth + 1))%Q i'
  end.

(** [analyser.frequencyBinCount]; [None] is a [null] analyser. *)
Record Props := mkProps {
  isActive : bool;
  analyser : option nat
}.

(** The array of line 439 after [getByteFrequencyData] wrote [data] into
    it: [bufferLength] bytes, zero where nothing was written. *)
Definition dataArray (bufferLength : nat) (data : list N) : list N :=
  take bufferLength (data ++ replicate bufferLength 0%N).

(** [draw], lines 425-471: what it paints, and whether it asks for the
    next frame. *)
Definition draw (p : Props) (data : list N) : list CanvasOp * bool :=
  match isActive p, analyser p with
  | true, Some bufferLength =>
      (FillRect :: bars (barWidthOf bufferLength) 0%Q (dataArray bufferLength data),
       true)
  | _, _ =>
      ([ClearRect; Line 0%Q (height / 2)%Q width (height / 2)%Q], false)
  end.

(** The mounted component: its props, whether the canvas and its 2d
    context exist (lines 415-419), [animationRef.current], the frames
    requested and neither fired nor cancelled, each with the props of the
    [draw] that will run, and the last handle [requestAnimationFrame]
    returned. *)
Record Mounted := mkMounted {
  props : Props;
  canvasReady : bool;
  animationRef : nat;
  scheduled : list (nat * Props);
  lastHandle : nat
}.

(** One call of [draw] with the props [p] of its closure. *)
Definition runDraw (p : Props) (m : Mounted) : Mounted :=
  if snd (draw p [])
  then mkMounted (props m) (canvasReady m) (S (lastHandle m))
         (scheduled m ++ [(S (lastHandle m), p)]) (S (lastHandle m))
  else m.

(** The effect of lines 414-478 run for the props of [m]. *)
Definition effect (m : Mounted) : Mounted :=
  if canvasReady m then runDraw (props m) m else m.

(** Its cleanup, lines 475-477; there is none when the effect returned
    at line 416 or 419. *)
Definition cleanup (m : Mounted) : Mounted :=
  if canvasReady m
  then mkMounted (props m) (canvasReady m) (animationRef m)
         (filter (fun f => fst f ≠ animationRef m) (scheduled m)) (lastHandle m)
  else m.

Definition mountWith (p : Props) (ready : bool) : Mounted :=
  effect (mkMounted p ready 0%nat [] 0%nat).

Inductive Event :=
| Update (p : Props)   (* a dependency changed: cleanup, then the effect *)
| Frame (h : nat)      (* the browser fires the frame [h] *)
| Unmount.

Definition step (ev : Event) (m : Mounted) : Mounted :=
  match ev with
  | Update p =>
      let m := cleanup m in
      effect (mkMounted p (canvasReady m) (animationRef m) (scheduled m) (lastHandle m))
  | Frame h =>
      match list_find (fun f => fst f = h) (scheduled m) with
      | Some (i, (_, p)) =>
          runDraw p (mkMounted (props m) (canvasReady m) (animationRef m)
                       (delete i (scheduled m)) (lastHandle m))
      | None => m
      end
  | Unmount => cleanup m
  end.

Definition run (evs : list Event) (m : Mounted) : Mounted := foldl (fun m ev => step ev m) m evs.

(** At most the frame that [animationRef] names is scheduled, and it
    runs the [draw] of the current props. *)
Definition tidy (m : Mounted) : Prop :=
  scheduled m = [] ∨
  (canvasReady m = true ∧ scheduled m = [(animationRef m, props m)] ∧
   snd (draw (props m) []) = true).

End Visualizer.

(** The visualizer as [App] uses it, line 359; the analyser of line 150
    has [fftSize] 256, hence 128 bins. *)
Definition visualizerProps (s : State) : Visualizer.Props :=
  Visualizer.mkProps (isConnected s)
    (if inputAnalyserRef s then Some 128%nat else None).

(** * Properties *)

(** ** Strings *)

Lemma trimStart_hasInk s : truthy (trimStart s) = hasInk s.
Proof.
  induction s as [|c s IH]; simpl; [done|].
  destruct (isWhiteSpace c); simpl; [exact IH | done].
Qed.

Lemma hasInk_app s t : hasInk (s ++ t) = hasInk s || hasInk t.
Proof. apply existsb_app. Qed.

Lemma hasInk_rev s : hasInk (rev s) = hasInk s.
Proof.
  induction s as [|c s IH]; simpl; [done|].
  rewrite hasInk_app, IH. simpl. rewrite orb_false_r. apply orb_comm.
Qed.

Lemma truthy_rev s : truthy (rev s) = truthy s.
Proof.
  destruct s as [|c s]; simpl; [done|].
  destruct (rev s); done.
Qed.

Lemma hasInk_trimStart s : hasInk (trimStart s) = hasInk s.
Proof.
  induction s as [|c s IH]; simpl; [done|].
  destruct (isWhiteSpace c) eqn:E; simpl; [exact IH | by rewrite E].
Qed.

(** [text.trim()] is truthy exactly when [text] holds a character that is
    not white space. *)
Lemma truthy_trim s : truthy (trim s) = hasInk s.
Proof.
  unfold trim, trimEnd.
  by rewrite truthy_rev, trimStart_hasInk, hasInk_rev, hasInk_trimStart.
Qed.

Lemma truthy_true s : truthy s = true <-> s ≠ [].
Proof. destruct s; simpl; split; congruence. Qed.

Lemma truthy_app_l s t : truthy s = true -> truthy (s ++ t) = true.
Proof. by destruct s. Qed.

Lemma hasInk_truthy s : hasInk s = true -> truthy s = true.
Proof. by destruct s. Qed.

Lemma digits_nonempty d : d ≠ Decimal.Nil -> truthy (digits d) = true.
Proof. by destruct d. Qed.

Lemma numberToString_truthy n : truthy (numberToString n) = true.
Proof.
  unfold numberToString. apply digits_nonempty.
  destruct n as [|p]; simpl; [done|].
  apply DecimalPos.Unsigned.to_uint_nonnil.
Qed.

(** An id made at line 80 is never the empty string. *)
Lemma makeId_truthy seed : truthy (makeId seed) = true.
Proof. apply truthy_app_l, numberToString_truthy. Qed.

Lemma hasInk_marker s : hasInk (s ++ interruptionMarker) = true.
Proof. rewrite hasInk_app. apply orb_true_r. Qed.

(** ** findIndex *)

Section FindIndex.
Context {A : Type} (p : A -> bool).

Lemma findIndex_Some l i :
  findIndex p l = Some i ->
  exists x, l !! i = Some x ∧ p x = true ∧
    forall j y, (j < i)%nat -> l !! j = Some y -> p y = false.
Proof.
  revert i. induction l as [|a l IH]; intros i; simpl; [done|].
  destruct (p a) eqn:Ea.
  - intros [= <-]. exists a. split_and!; [done..|]. intros j y Hj. lia.
  - destruct (findIndex p l) as [k|]; simpl; [|done].
    intros [= <-]. destruct (IH k eq_refl) as (x & Hx & Hp & Hlt).
    exists x. split_and!; [done..|].
    intros [|j] y Hj; simpl; [by intros [= <-]|].
    apply Hlt. lia.
Qed.

Lemma findIndex_None l :
  findIndex p l = None <-> forall x, x ∈ l -> p x = false.
Proof.
  induction l as [|a l IH]; simpl.
  - split; [|done]. intros _ x Hx. by apply elem_of_nil in Hx.
  - destruct (p a) eqn:Ea.
    + split; [done|]. intros H. specialize (H a (list_elem_of_here _ _)). congruence.
    + destruct (findIndex p l) as [k|]; simpl.
      * split; [done|]. intros H.
        assert (@None nat = None) as _ by done.
        destruct IH as [_ IH]. discriminate IH.
        intros x Hx. apply H. by apply list_elem_of_further.
      * split; [|done]. intros _ x [->|Hx]%elem_of_cons; [done|].
        by apply IH.
Qed.

Lemma findIndex_app_r l l' :
  findIndex p l = None ->
  findIndex p (l ++ l') = (fun k => (length l + k)%nat) <$> findIndex p l'.
Proof.
  induction l as [|a l IH]; simpl.
  - intros _. by destruct (findIndex p l').
  - destruct (p a); [done|].
    destruct (findIndex p l) as [k|]; simpl; [done|].
    intros _. rewrite IH by done. by destruct (findIndex p l').
Qed.

Lemma findIndex_here l i x :
  l !! i = Some x -> p x = true ->
  (forall j y, (j < i)%nat -> l !! j = Some y -> p y = false) ->
  findIndex p l = Some i.
Proof.
  revert i. induction l as [|a l IH]; intros [|i]; simpl; try done.
  - by intros [= ->] ->.
  - intros Hx Hp Hlt.
    rewrite (Hlt O a) by (simpl; done || lia).
    rewrite (IH i); [done..|].
    intros j y Hj Hy. apply (Hlt (S j) y); [lia|done].
Qed.
End FindIndex.

(** ** The updater of lines 86-107 *)

Lemma upsert_found tid rl txt isFinal prev i :
  findIndex (fun m => bool_decide (id m = tid)) prev = Some i ->
  exists m, prev !! i = Some m ∧ id m = tid ∧
    upsert tid rl txt isFinal prev
    = <[i := mkMessage tid (role m) txt (negb isFinal)]> prev.
Proof.
  intros Hi. destruct (findIndex_Some _ _ _ Hi) as (m & Hm & Hp & _).
  apply bool_decide_eq_true in Hp. exists m. split_and!; [done..|].
  unfold upsert. by rewrite Hi, Hm, Hp.
Qed.

Lemma upsert_unused tid rl txt isFinal prev :
  unused tid prev ->
  upsert tid rl txt isFinal prev = prev ++ [mkMessage tid rl txt (negb isFinal)].
Proof. unfold unused, upsert. by intros ->. Qed.

Lemma unused_spec tid l : unused tid l <-> tid ∉ (id <$> l).
Proof.
  unfold unused. rewrite findIndex_None. split.
  - intros H (m & -> & Hm)%list_elem_of_fmap.
    specialize (H m Hm). by apply bool_decide_eq_false in H.
  - intros H m Hm. apply bool_decide_eq_false. intros <-.
    apply H, list_elem_of_fmap. eauto.
Qed.

(** With pairwise different ids, [findIndex] finds a message where it is. *)
Lemma findIndex_nodup l i m :
  NoDup (id <$> l) -> l !! i = Some m ->
  findIndex (fun m' => bool_decide (id m' = id m)) l = Some i.
Proof.
  intros Hnd Hm. apply findIndex_here with m; [done|by apply bool_decide_eq_true|].
  intros j y Hj Hy. apply bool_decide_eq_false. intros Heq.
  assert (j = i); [|lia].
  eapply NoDup_lookup; [exact Hnd|..]; rewrite list_lookup_fmap.
  - by rewrite Hy.
  - by rewrite Hm, Heq.
Qed.

(** One call of the updater pushes one new message, or rewrites the text
    and the flag of one message, whose id and role stay. *)
Lemma upsert_listChange tid rl txt isFinal prev :
  listChange prev (upsert tid rl txt isFinal prev).
Proof.
  destruct (findIndex (fun m => bool_decide (id m = tid)) prev) as [i|] eqn:Hi.
  - destruct (upsert_found tid rl txt isFinal prev i Hi) as (m & Hm & <- & ->).
    by eapply change_rewrite.
  - rewrite upsert_unused by done.
    by apply (change_push _ _ (mkMessage tid rl txt (negb isFinal))).
Qed.

Lemma listChange_identity old new :
  listChange old new -> (identity <$> old) `prefix_of` (identity <$> new).
Proof.
  intros [->| m _ -> | i m txt partial Hm ->].
  - done.
  - rewrite fmap_app. by apply prefix_app_r.
  - rewrite list_fmap_insert. unfold identity at 2. simpl.
    rewrite list_insert_id; [done|]. by rewrite list_lookup_fmap, Hm.
Qed.

(** ** updateMessage *)

Lemma setActiveId_twice r v w a :
  setActiveId r v (setActiveId r w a) = setActiveId r v a.
Proof. by destruct r. Qed.

Lemma activeId_set r v a : activeId r (setActiveId r v a) = v.
Proof. by destruct r. Qed.

Lemma activeId_set_other r v a :
  activeId (otherRole r) (setActiveId r v a) = activeId (otherRole r) a.
Proof. by destruct r. Qed.

Lemma setActiveId_same r a : setActiveId r (activeId r a) a = a.
Proof. by destruct r, a. Qed.

(** The tracker holds an id: no id is drawn, the message is upserted. *)
Lemma updateMessage_tracked rl txt isFinal s tid :
  activeId rl (activeMessageIds s) = Some tid -> truthy tid = true ->
  messages (updateMessage rl txt isFinal s) = upsert tid rl txt isFinal (messages s) ∧
  activeMessageIds (updateMessage rl txt isFinal s)
  = (if isFinal then setActiveId rl None (activeMessageIds s) else activeMessageIds s) ∧
  idsDrawn (updateMessage rl txt isFinal s) = idsDrawn s.
Proof.
  intros Ha Ht. unfold updateMessage. rewrite Ha. simpl. rewrite Ht. simpl.
  rewrite Ht. by destruct isFinal.
Qed.

(** No usable id in the tracker and a text with ink: one id is drawn. *)
Lemma updateMessage_fresh rl txt isFinal s :
  truthy_opt (activeId rl (activeMessageIds s)) = false -> hasInk txt = true ->
  messages (updateMessage rl txt isFinal s) = upsert (nextId s) rl txt isFinal (messages s) ∧
  activeMessageIds (updateMessage rl txt isFinal s)
  = setActiveId rl (if isFinal then None else Some (nextId s)) (activeMessageIds s) ∧
  idsDrawn (updateMessage rl txt isFinal s) = S (idsDrawn s).
Proof.
  intros Ha Ht. unfold updateMessage. rewrite Ha, truthy_trim, Ht. simpl.
  rewrite (makeId_truthy (entropy s (idsDrawn s))). unfold nextId.
  destruct isFinal; simpl; [|done]. by rewrite setActiveId_twice.
Qed.

(** No usable id in the tracker and a blank text: line 84 returns. *)
Lemma updateMessage_blank rl txt isFinal s :
  truthy_opt (activeId rl (activeMessageIds s)) = false -> hasInk txt = false ->
  updateMessage rl txt isFinal s = s.
Proof.
  intros Ha Ht. unfold updateMessage. rewrite Ha, truthy_trim, Ht. simpl.
  destruct (activeId rl (activeMessageIds s)) as [tid|]; [|done].
  simpl in Ha. by rewrite Ha.
Qed.

Lemma updateMessage_sameSession rl txt isFinal s :
  sameSession s (updateMessage rl txt isFinal s) ∧
  currentInputTextRef (updateMessage rl txt isFinal s) = currentInputTextRef s ∧
  currentOutputTextRef (updateMessage rl txt isFinal s) = currentOutputTextRef s.
Proof.
  unfold updateMessage, sameSession.
  destruct (negb _ && _); simpl.
  - destruct (truthy _); [destruct isFinal|]; simpl; done.
  - destruct (activeId _ _) as [tid|]; [|done].
    destruct (truthy tid); [destruct isFinal|]; simpl; done.
Qed.

Lemma updateMessage_listChange rl txt isFinal s :
  listChange (messages s) (messages (updateMessage rl txt isFinal s)).
Proof.
  destruct (truthy_opt (activeId rl (activeMessageIds s))) eqn:Ha.
  - destruct (activeId rl (activeMessageIds s)) as [tid|] eqn:Hid; [|done].
    destruct (updateMessage_tracked rl txt isFinal s tid Hid Ha) as (-> & _).
    apply upsert_listChange.
  - destruct (hasInk txt) eqn:Ht.
    + destruct (updateMessage_fresh rl txt isFinal s Ha Ht) as (-> & _).
      apply upsert_listChange.
    + rewrite updateMessage_blank by done. by apply change_none.
Qed.

(** ** The handlers and the transcript *)

Lemma onmessage_transcription r txt s :
  onmessage (transcriptionMsg r txt) s = onTranscription r (Some (mkTranscription txt)) s.
Proof. by destruct r. Qed.

Lemma onmessage_turnComplete s : onmessage turnCompleteMsg s = onTurnComplete s.
Proof. done. Qed.

Lemma onmessage_interrupted s : onmessage interruptedMsg s = onInterrupted s.
Proof. done. Qed.

Lemma buffer_set r v s : buffer r (set_buffer r v s) = v.
Proof. by destruct r. Qed.

Lemma buffer_set_other r v s :
  buffer (otherRole r) (set_buffer r v s) = buffer (otherRole r) s.
Proof. by destruct r. Qed.

Lemma buffer_updateMessage r rl txt isFinal s :
  buffer r (updateMessage rl txt isFinal s) = buffer r s.
Proof.
  destruct (updateMessage_sameSession rl txt isFinal s) as (_ & Hi & Ho).
  by destruct r.
Qed.

Lemma set_buffer_fields r v s :
  messages (set_buffer r v s) = messages s ∧
  activeMessageIds (set_buffer r v s) = activeMessageIds s ∧
  idsDrawn (set_buffer r v s) = idsDrawn s ∧
  entropy (set_buffer r v s) = entropy s ∧
  sameSession s (set_buffer r v s).
Proof. by destruct r. Qed.

Lemma nextId_set_buffer r v s : nextId (set_buffer r v s) = nextId s.
Proof. by destruct r. Qed.

Lemma listChange_prefix_trans (l1 l2 l3 : list Message) :
  (identity <$> l1) `prefix_of` (identity <$> l2) ->
  listChange l2 l3 ->
  (identity <$> l1) `prefix_of` (identity <$> l3).
Proof. intros H12 H23. etrans; [exact H12|]. by apply listChange_identity. Qed.

Lemma onTranscription_grows r tr s :
  (identity <$> messages s) `prefix_of` (identity <$> messages (onTranscription r tr s)).
Proof.
  unfold onTranscription. destruct tr as [[[txt|]]|]; [|done..].
  destruct (truthy txt); [|done].
  eapply listChange_prefix_trans; [|apply updateMessage_listChange].
  by destruct (set_buffer_fields r (buffer r s ++ txt) s) as (-> & _).
Qed.

Lemma commitTurn_grows r s :
  (identity <$> messages s) `prefix_of` (identity <$> messages (commitTurn r s)).
Proof.
  unfold commitTurn. destruct (truthy (buffer r s)); [|done].
  destruct (set_buffer_fields r [] (updateMessage r (buffer r s) true s)) as (-> & _).
  apply listChange_identity, updateMessage_listChange.
Qed.

Lemma onInterrupted_grows s :
  (identity <$> messages s) `prefix_of` (identity <$> messages (onInterrupted s)).
Proof.
  unfold onInterrupted. destruct (truthy (currentOutputTextRef s)); [|done].
  apply listChange_identity, updateMessage_listChange.
Qed.

Lemma onmessage_grows msg s :
  (identity <$> messages s) `prefix_of` (identity <$> messages (onmessage msg s)).
Proof.
  unfold onmessage. destruct (serverContent msg) as [sc|]; [|done].
  etrans; [apply (onTranscription_grows user (inputTranscription sc))|].
  etrans; [apply (onTranscription_grows model (outputTranscription sc))|].
  set (s2 := onTranscription model _ _).
  assert ((identity <$> messages s2) `prefix_of`
          (identity <$> messages (if turnComplete sc then onTurnComplete s2 else s2))) as H.
  { destruct (turnComplete sc); [|done]. unfold onTurnComplete.
    etrans; [apply (commitTurn_grows user)|apply commitTurn_grows]. }
  etrans; [exact H|].
  destruct (interrupted sc); [apply onInterrupted_grows|done].
Qed.

(** No phase of [disconnect] and no phase of [connect] touches the list. *)
Lemma messages_spawn p : messages (spawn p) = messages (stateOf p).
Proof. by destruct p. Qed.

Lemma messages_disconnect_closeSession s :
  messages (stateOf (disconnect_closeSession s)) = messages s.
Proof. unfold disconnect_closeSession. by destruct (sessionRef s). Qed.

Lemma messages_disconnect_stopTracks s :
  messages (stateOf (disconnect_stopTracks s)) = messages s.
Proof.
  unfold disconnect_stopTracks. rewrite messages_disconnect_closeSession.
  destruct (sourceNodeRef s) eqn:Hs; simpl; destruct (processorNodeRef s) eqn:Hp;
    simpl; by rewrite ?Hp.
Qed.

Lemma messages_disconnect s : messages (stateOf (disconnect s)) = messages s.
Proof.
  unfold disconnect. simpl. destruct (inputContextRef s); [done|].
  by rewrite messages_disconnect_stopTracks.
Qed.

Lemma messages_disconnect_afterSession n o s :
  messages (stateOf (disconnect_afterSession n o s)) = messages s.
Proof. by destruct o. Qed.

Lemma messages_connect_catch message s :
  messages (stateOf (connect_catch message s)) = messages s.
Proof.
  unfold connect_catch. simpl. by rewrite messages_spawn, messages_disconnect.
Qed.

Lemma messages_connect env s : messages (stateOf (connect env s)) = messages s.
Proof.
  unfold connect. cbv zeta. destruct (aiRef s); [|done].
  destruct (constructorThrows env); [by rewrite messages_connect_catch|].
  by destruct (startsSuspended env).
Qed.

Lemma messages_resume t o s : messages (stateOf (resume t o s)) = messages s.
Proof.
  destruct t; simpl.
  - destruct o; [done|]. apply messages_connect_catch.
  - destruct o; [done|]. apply messages_connect_catch.
  - apply messages_disconnect_stopTracks.
  - apply messages_disconnect_afterSession.
Qed.

Lemma messages_onerror message s : messages (onerror message s) = messages s.
Proof. unfold onerror. by rewrite messages_spawn, messages_disconnect. Qed.

Lemma messages_downloadTranscript isoNow s :
  messages (downloadTranscript isoNow s) = messages s.
Proof. unfold downloadTranscript. by destruct (messages s) eqn:E. Qed.

Lemma messages_onopen s : messages (onopen s) = messages s.
Proof. unfold onopen. simpl. by destruct (inputContextRef s). Qed.

Lemma step_grows ev s s' :
  step ev s = Some s' ->
  (identity <$> messages s) `prefix_of` (identity <$> messages s').
Proof.
  destruct ev; simpl.
  - intros [= <-]. by rewrite messages_spawn, messages_connect.
  - intros [= <-]. by rewrite messages_spawn, messages_disconnect.
  - intros [= <-]. by rewrite messages_downloadTranscript.
  - destruct (pending s !! k); [|done]. intros [= <-].
    by rewrite messages_spawn, messages_resume.
  - destruct (sessionOpened s); [|done]. intros [= <-]. by rewrite messages_onopen.
  - destruct (sessionOpened s); [|done]. intros [= <-]. apply onmessage_grows.
  - destruct (sessionOpened s); [|done]. by intros [= <-].
  - destruct (sessionOpened s); [|done]. intros [= <-]. by rewrite messages_onerror.
Qed.

Lemma run_grows evs s s' :
  run evs s = Some s' ->
  (identity <$> messages s) `prefix_of` (identity <$> messages s').
Proof.
  revert s. induction evs as [|ev evs IH]; intros s; simpl.
  - by intros [= <-].
  - destruct (step ev s) as [s1|] eqn:Hs; [|done]. intros Hr.
    etrans; [by eapply step_grows|by apply IH].
Qed.

(** ** The list only grows *)

(** C9. No operation deletes a message or changes the id or the role of
    one: a call of [updateMessage] leaves the list, pushes one message with
    an unused id at its end, or rewrites the text and the flag of one
    message; over every step and every run of the event loop the ids and
    roles before are a prefix of those after; no phase of [disconnect]
    touches the list. *)
Theorem messages_never_deleted :
  (forall rl txt isFinal s,
     listChange (messages s) (messages (updateMessage rl txt isFinal s))) ∧
  (forall ev s s', step ev s = Some s' ->
     (identity <$> messages s) `prefix_of` (identity <$> messages s')) ∧
  (forall evs s s', run evs s = Some s' ->
     (identity <$> messages s) `prefix_of` (identity <$> messages s')) ∧
  (forall s, messages (stateOf (disconnect s)) = messages s) ∧
  (forall s, messages (stateOf (disconnect_stopTracks s)) = messages s) ∧
  (forall n o s, messages (stateOf (disconnect_afterSession n o s)) = messages s).
Proof.
  split_and!.
  - apply updateMessage_listChange.
  - apply step_grows.
  - apply run_grows.
  - apply messages_disconnect.
  - apply messages_disconnect_stopTracks.
  - apply messages_disconnect_afterSession.
Qed.

Lemma messages_never_deleted_witness :
  step (OnMessage turnCompleteMsg) exampleMidTurn
    = Some (onmessage turnCompleteMsg exampleMidTurn) ∧
  (identity <$> messages exampleMidTurn) `prefix_of`
    (identity <$> messages (onmessage turnCompleteMsg exampleMidTurn)).
Proof.
  split; [reflexivity|].
  apply (proj1 (proj2 messages_never_deleted) (OnMessage turnCompleteMsg)).
  reflexivity.
Defined.

(** ** Fragments without text, and turn-complete on an empty buffer *)

(** C7. A transcription event whose text is empty (or absent) leaves the
    whole state as it was: the buffer of its role, both trackers and the
    list in particular.  So does the transcription branch of [onmessage]
    within any server message. *)
Theorem empty_fragment_ignored (r : Role) (s : State) :
  onmessage (fragmentMsg r []) s = s ∧
  onmessage (transcriptionMsg r None) s = s ∧
  buffer r (onmessage (fragmentMsg r []) s) = buffer r s ∧
  activeMessageIds (onmessage (fragmentMsg r []) s) = activeMessageIds s ∧
  messages (onmessage (fragmentMsg r []) s) = messages s ∧
  onTranscription r (Some (mkTranscription (Some []))) s = s ∧
  onTranscription r (Some (mkTranscription None)) s = s.
Proof. by destruct r. Qed.

(** C6. With the buffer of a role empty, the branch of the turn-complete
    handling for that role does nothing: no message is created, none is
    finalized, the list is the same.  With both buffers empty the whole
    signal does nothing. *)
Theorem turnComplete_empty_buffer (r : Role) (s : State) :
  buffer r s = [] ->
  commitTurn r s = s ∧ messages (commitTurn r s) = messages s ∧
  (buffer (otherRole r) s = [] -> onmessage turnCompleteMsg s = s).
Proof.
  intros H. unfold commitTurn. rewrite H. split_and!; [done..|].
  intros Ho. rewrite onmessage_turnComplete. unfold onTurnComplete, commitTurn.
  destruct r; simpl in *; by rewrite ?H, ?Ho; simpl; rewrite ?H, ?Ho.
Qed.

Lemma turnComplete_empty_buffer_witness :
  buffer model (onmessage (fragmentMsg user (lit "salaam")) exampleOpen) = [] ∧
  commitTurn model (onmessage (fragmentMsg user (lit "salaam")) exampleOpen)
  = onmessage (fragmentMsg user (lit "salaam")) exampleOpen.
Proof.
  assert (buffer model (onmessage (fragmentMsg user (lit "salaam")) exampleOpen) = [])
    as Hb by (vm_compute; reflexivity).
  split; [exact Hb|].
  exact (proj1 (turnComplete_empty_buffer model
                  (onmessage (fragmentMsg user (lit "salaam")) exampleOpen) Hb)).
Defined.

(** ** Transcript export *)

Lemma block_label m : block m = label (role m) ++ text m.
Proof. unfold block. by destruct (role m). Qed.

Lemma join_length sep parts :
  length (join sep parts)
  = (sum_list (length <$> parts) + length sep * pred (length parts))%nat.
Proof.
  induction parts as [|p [|q rest] IH]; simpl in *.
  - done.
  - rewrite app_nil_r || idtac. lia.
  - rewrite !length_app, IH. simpl. lia.
Qed.

(** C4. With no message the export does nothing.  With N messages it
    hands out one text made of N blocks in the order of the list, the
    i-th being [[User]: ] or [[AI]: ] followed by the text of the i-th
    message, and two consecutive blocks are separated by one blank line:
    the text is as long as the blocks together and two line breaks for
    each gap. *)
Theorem transcript_export (isoNow : jsstring) (s : State) :
  (messages s = [] -> downloadTranscript isoNow s = s) ∧
  (messages s ≠ [] ->
     exists blocks,
       length blocks = length (messages s) ∧
       (forall i m, messages s !! i = Some m ->
          blocks !! i = Some (label (role m) ++ text m)) ∧
       trace (downloadTranscript isoNow s)
       = trace s ++ [Download (join blankLine blocks) (transcriptName isoNow)] ∧
       length (join blankLine blocks)
       = (sum_list (length <$> blocks) + 2 * pred (length blocks))%nat ∧
       messages (downloadTranscript isoNow s) = messages s) ∧
  (forall p, join blankLine [p] = p) ∧
  (forall p q rest,
     join blankLine (p :: q :: rest) = p ++ blankLine ++ join blankLine (q :: rest)).
Proof.
  split_and!.
  - intros H. unfold downloadTranscript. by rewrite H.
  - intros H. exists (block <$> messages s). split_and!.
    + by rewrite length_fmap.
    + intros i m Hm. by rewrite list_lookup_fmap, Hm, <- block_label.
    + unfold downloadTranscript. destruct (messages s) eqn:E; done.
    + apply join_length.
    + apply messages_downloadTranscript.
  - done.
  - done.
Qed.

Lemma transcript_export_witness :
  messages exampleMidTurn ≠ [] ∧
  (exists blocks,
     length blocks = 2%nat ∧
     blocks !! 1%nat = Some (lit "[AI]: hello") ∧
     trace (downloadTranscript (lit "2025-01-02T03:04:05.678Z") exampleMidTurn)
     = trace exampleMidTurn ++
       [Download (join blankLine blocks) (lit "transcript_2025-01-02T03-04-05.txt")]) ∧
  downloadTranscript (lit "now") (mount exampleKey exampleEntropy)
  = mount exampleKey exampleEntropy.
Proof.
  assert (messages exampleMidTurn ≠ []) as Hne by (vm_compute; discriminate).
  split; [exact Hne|]. split.
  - destruct (proj1 (proj2
      (transcript_export (lit "2025-01-02T03:04:05.678Z") exampleMidTurn)) Hne)
      as (blocks & Hlen & Hblock & Ht & _).
    exists blocks. split; [exact Hlen|]. split; [|exact Ht].
    exact (Hblock 1%nat
      (mkMessage (makeId (exampleEntropy 1)) model (lit "hello") true) eq_refl).
  - apply (proj1 (transcript_export (lit "now") (mount exampleKey exampleEntropy))).
    reflexivity.
Defined.

(** ** Missing credential *)

Lemma mount_keyless apiKey e :
  truthy_opt apiKey = false ->
  mount apiKey e
  = mkState false [] (Some missingKey) None None None false false false [] []
      (mkActiveIds None None) e 0%nat [SetError (Some missingKey)] [].
Proof. intros H. unfold mount, initAI. by rewrite H. Qed.

Lemma connect_without_client env s : aiRef s = None -> connect env s = Done s.
Proof. intros H. unfold connect. by rewrite H. Qed.

Lemma step_keyless apiKey e ev s' :
  truthy_opt apiKey = false ->
  step ev (mount apiKey e) = Some s' -> s' = mount apiKey e.
Proof.
  intros H. rewrite (mount_keyless _ _ H).
  destruct ev as [env| |isoNow|k o| |msg| |message]; simpl;
    try (by intros [= <-]); done.
Qed.

Lemma run_keyless apiKey e evs s' :
  truthy_opt apiKey = false ->
  run evs (mount apiKey e) = Some s' -> s' = mount apiKey e.
Proof.
  intros H. induction evs as [|ev evs IH]; simpl.
  - by intros [= <-].
  - destruct (step ev (mount apiKey e)) as [s1|] eqn:Hs; [|done].
    apply (step_keyless _ _ _ _ H) in Hs. subst s1. exact IH.
Qed.

(** C8. When the credential is absent (or the empty string) at startup,
    the mount effect sets the error to "API Key is missing." by its one
    call of [setError]; whatever happens afterwards the state stays the
    one after mount, so that call of [setError] stays the only one and no
    session is opened and no audio resource acquired; and every call of
    [connect] returns at line 135 with the state untouched. *)
Theorem missing_key_blocks_connect (apiKey : option jsstring) (e : nat -> IdSeed) :
  truthy_opt apiKey = false ->
  error (mount apiKey e) = Some (lit "API Key is missing.") ∧
  trace (mount apiKey e) = [SetError (Some (lit "API Key is missing."))] ∧
  aiRef (mount apiKey e) = None ∧
  (forall evs s, run evs (mount apiKey e) = Some s ->
     s = mount apiKey e ∧
     forall env, connect env s = Done s ∧ step (ClickConnect env) s = Some s) ∧
  (forall env s, aiRef s = None -> connect env s = Done s).
Proof.
  intros H. split_and!.
  - by rewrite (mount_keyless _ _ H).
  - by rewrite (mount_keyless _ _ H).
  - by rewrite (mount_keyless _ _ H).
  - intros evs s Hr. apply (run_keyless _ _ _ _ H) in Hr. subst s.
    split; [done|]. intros env.
    assert (connect env (mount apiKey e) = Done (mount apiKey e)) as Hc.
    { apply connect_without_client. by rewrite (mount_keyless _ _ H). }
    split; [exact Hc|]. simpl. by rewrite Hc.
  - apply connect_without_client.
Qed.

Lemma missing_key_blocks_connect_witness :
  truthy_opt None = false ∧
  error (mount None exampleEntropy) = Some (lit "API Key is missing.") ∧
  run [ClickConnect (mkConnectEnv None false); ClickDisconnect;
       ClickConnect (mkConnectEnv None true)] (mount None exampleEntropy)
  = Some (mount None exampleEntropy).
Proof.
  split; [reflexivity|].
  pose proof (missing_key_blocks_connect None exampleEntropy eq_refl)
    as (He & _ & _ & _ & _).
  split; [exact He|]. reflexivity.
Defined.

(** ** disconnect *)

Lemma cleared_reset s : cleared (disconnect_reset s).
Proof. done. Qed.

Lemma inDisconnect_closeSession s : inDisconnect (disconnect_closeSession s).
Proof. unfold disconnect_closeSession. destruct (sessionRef s); [done|apply cleared_reset]. Qed.

Lemma inDisconnect_stopTracks s : inDisconnect (disconnect_stopTracks s).
Proof. apply inDisconnect_closeSession. Qed.

Lemma inDisconnect_disconnect s : inDisconnect (disconnect s).
Proof.
  unfold disconnect. simpl. destruct (inputContextRef s); [done|].
  apply inDisconnect_stopTracks.
Qed.

Lemma inDisconnect_afterSession n o s : inDisconnect (disconnect_afterSession n o s).
Proof. destruct o; [apply cleared_reset|done]. Qed.

Lemma inDisconnect_completes p s' :
  inDisconnect p -> completes p s' -> cleared s'.
Proof.
  intros Hp Hc. induction Hc as [s|t s evs s1 o s' Hr Hc IH]; [exact Hp|].
  apply IH. destruct t; simpl in *; try done.
  - apply inDisconnect_stopTracks.
  - apply inDisconnect_afterSession.
Qed.

(** When the awaited promises are fulfilled the call does end, whatever
    the state it starts from. *)
Lemma disconnect_closeSession_fulfilled s :
  exists s', fulfilled (disconnect_closeSession s) = Done s' ∧
             completes (disconnect_closeSession s) s'.
Proof.
  unfold disconnect_closeSession. destruct (sessionRef s) as [n|]; simpl.
  - eexists. split; [done|].
    eapply (completes_await _ _ [] s Fulfilled); [done|]. apply completes_done.
  - eexists. split; [done|]. apply completes_done.
Qed.

Lemma disconnect_fulfilled s :
  exists s', fulfilled (fulfilled (disconnect s)) = Done s' ∧
             completes (disconnect s) s'.
Proof.
  unfold disconnect. cbv zeta.
  destruct (inputContextRef (setIsConnected false s)).
  - destruct (disconnect_closeSession_fulfilled
      (let s1 := emit ContextClose (setIsConnected false s) in
       let s2 := if sourceNodeRef s1 then emit SourceDisconnect s1 else s1 in
       if processorNodeRef s2 then emit ProcessorDisconnect s2 else s2))
      as (s' & Hf & Hc).
    exists s'. split; [exact Hf|].
    eapply (completes_await _ _ [] _ Fulfilled); [done|]. exact Hc.
  - destruct (disconnect_closeSession_fulfilled
      (let s1 := setIsConnected false s in
       let s2 := if sourceNodeRef s1 then emit SourceDisconnect s1 else s1 in
       if processorNodeRef s2 then emit ProcessorDisconnect s2 else s2))
      as (s' & Hf & Hc).
    exists s'. split; [|exact Hc].
    change (fulfilled (fulfilled (disconnect_closeSession
      (let s1 := setIsConnected false s in
       let s2 := if sourceNodeRef s1 then emit SourceDisconnect s1 else s1 in
       if processorNodeRef s2 then emit ProcessorDisconnect s2 else s2))) = Done s').
    by rewrite Hf.
Qed.

(** The [await] of line 274 on a rejected promise throws before the reset. *)
Lemma disconnect_afterSession_rejected n message s :
  disconnect_afterSession n (Rejected message) s = Threw s.
Proof. done. Qed.

(** C1. Whenever a call of [disconnect] runs to its end (from whatever
    state, after a failed connection or a remote error as well, and
    whatever the event loop handles while the call is suspended at an
    [await]) it leaves both buffers empty and both trackers [null].  And
    from every state the call does run to its end when the promises it
    awaits are fulfilled. *)
Theorem disconnect_clears (s : State) :
  (forall s', completes (disconnect s) s' -> cleared s') ∧
  (exists s', fulfilled (fulfilled (disconnect s)) = Done s' ∧
              completes (disconnect s) s').
Proof.
  split; [|apply disconnect_fulfilled].
  intros s'. apply inDisconnect_completes, inDisconnect_disconnect.
Qed.

Lemma disconnect_clears_witness :
  completes (disconnect exampleErrored) exampleDisconnected ∧
  cleared exampleDisconnected.
Proof.
  assert (completes (disconnect exampleErrored) exampleDisconnected) as H.
  { eapply (completes_await _ _
      [Resume 0 Fulfilled; OnMessage (fragmentMsg user (lit "!"))] _ Fulfilled);
      [vm_compute; reflexivity|].
    eapply (completes_await _ _ [OnClose] _ Fulfilled);
      [vm_compute; reflexivity|].
    vm_compute. apply completes_done. }
  split; [exact H|].
  exact (proj1 (disconnect_clears exampleErrored) exampleDisconnected H).
Defined.

(** ** Fragments of one turn *)

Lemma onmessage_fragment r f s :
  f ≠ [] ->
  onmessage (fragmentMsg r f) s
  = updateMessage r (buffer r s ++ f) false (set_buffer r (buffer r s ++ f) s).
Proof.
  intros Hf%truthy_true. unfold fragmentMsg.
  rewrite onmessage_transcription. unfold onTranscription.
  by rewrite Hf, buffer_set.
Qed.

Lemma unused_findIndex_last tid l0 m :
  unused tid l0 -> id m = tid ->
  findIndex (fun m' => bool_decide (id m' = tid)) (l0 ++ [m]) = Some (length l0).
Proof.
  intros Hu Hm. rewrite findIndex_app_r by exact Hu. simpl.
  rewrite bool_decide_eq_true_2 by done. simpl. f_equal. lia.
Qed.

Lemma upsert_last tid rl txt isFinal l0 m :
  unused tid l0 -> id m = tid ->
  upsert tid rl txt isFinal (l0 ++ [m])
  = l0 ++ [mkMessage tid (role m) txt (negb isFinal)].
Proof.
  intros Hu Hm. unfold upsert. rewrite (unused_findIndex_last _ _ _ Hu Hm).
  rewrite list_lookup_middle by done. rewrite Hm.
  rewrite insert_app_r_alt by done. by rewrite Nat.sub_diag.
Qed.

Lemma fragment_turnState r l0 tid f s :
  f ≠ [] -> unused tid l0 -> truthy tid = true ->
  turnState r l0 tid s ->
  turnState r l0 tid (onmessage (fragmentMsg r f) s) ∧
  buffer r (onmessage (fragmentMsg r f) s) = buffer r s ++ f.
Proof.
  intros Hf Hu Ht Hs. rewrite onmessage_fragment by done.
  set (b := buffer r s ++ f). set (s1 := set_buffer r b s).
  destruct (set_buffer_fields r b s) as (Hm1 & Ha1 & Hn1 & He1 & _).
  fold s1 in Hm1, Ha1, Hn1, He1.
  assert (buffer r s1 = b) as Hb1 by apply buffer_set.
  split; [|by rewrite buffer_updateMessage].
  unfold turnState in *. rewrite buffer_updateMessage, Hb1.
  destruct (hasInk (buffer r s)) eqn:Hink.
  - destruct Hs as (Hl & Ha).
    assert (hasInk b = true) as -> by (unfold b; by rewrite hasInk_app, Hink).
    destruct (updateMessage_tracked r b false s1 tid) as (-> & -> & _);
      [by rewrite Ha1|done|].
    rewrite Hm1, Ha1, Hl. split; [|done]. by rewrite upsert_last.
  - destruct Hs as (Hl & Ha & Hn).
    assert (truthy_opt (activeId r (activeMessageIds s1)) = false) as Hno
      by (by rewrite Ha1, Ha).
    assert (nextId s1 = tid) as Hn' by (unfold s1; by rewrite nextId_set_buffer).
    destruct (hasInk b) eqn:Hb.
    + destruct (updateMessage_fresh r b false s1 Hno Hb) as (-> & -> & _).
      rewrite Hn', Hm1, Hl, activeId_set. split; [|done].
      by rewrite upsert_unused.
    + rewrite updateMessage_blank by done. by rewrite Hm1, Ha1.
Qed.

Lemma deliver_cons r f fs s :
  deliver r (f :: fs) s = deliver r fs (onmessage (fragmentMsg r f) s).
Proof. done. Qed.

Lemma deliver_turnState r l0 tid fs s :
  Forall (fun f => f ≠ []) fs -> unused tid l0 -> truthy tid = true ->
  turnState r l0 tid s ->
  turnState r l0 tid (deliver r fs s) ∧
  buffer r (deliver r fs s) = buffer r s ++ concat fs.
Proof.
  intros Hfs Hu Ht. revert s. induction Hfs as [|f fs Hf Hfs IH]; intros s Hs.
  - simpl. by rewrite app_nil_r.
  - rewrite deliver_cons.
    destruct (fragment_turnState r l0 tid f s Hf Hu Ht Hs) as (H1 & Hb1).
    destruct (IH _ H1) as (H2 & Hb2). split; [exact H2|].
    simpl. by rewrite Hb2, Hb1, <- app_assoc.
Qed.

Lemma turnState_start r s :
  buffer r s = [] -> activeId r (activeMessageIds s) = None ->
  turnState r (messages s) (nextId s) s.
Proof. intros Hb Ha. unfold turnState. by rewrite Hb. Qed.

Lemma inProgress_app r l l' : inProgress r (l ++ l') = inProgress r l ++ inProgress r l'.
Proof. apply filter_app. Qed.

(** C2, as the code has it.  The non-empty fragments of one turn of a
    role, handled in arrival order from the start of the turn (buffer
    empty, no active id) with the id to be drawn not in the list: the
    buffer becomes their concatenation, nothing skipped or merged.  When
    the concatenation holds a character that is not white space, the list
    gains exactly one message, at its end: in progress, of that role, its
    text the concatenation; it is the only message in progress of that role
    when none was before the turn.  When the fragments are all white space
    no message is created. *)
Theorem fragments_concatenate (r : Role) (fs : list jsstring) (s : State) :
  Forall (fun f => f ≠ []) fs ->
  buffer r s = [] -> activeId r (activeMessageIds s) = None ->
  unused (nextId s) (messages s) ->
  buffer r (deliver r fs s) = concat fs ∧
  (hasInk (concat fs) = true ->
     messages (deliver r fs s)
     = messages s ++ [mkMessage (nextId s) r (concat fs) true] ∧
     activeId r (activeMessageIds (deliver r fs s)) = Some (nextId s) ∧
     (inProgress r (messages s) = [] ->
      inProgress r (messages (deliver r fs s))
      = [mkMessage (nextId s) r (concat fs) true])) ∧
  (hasInk (concat fs) = false ->
     messages (deliver r fs s) = messages s ∧
     activeId r (activeMessageIds (deliver r fs s)) = None).
Proof.
  intros Hfs Hb Ha Hu.
  destruct (deliver_turnState r (messages s) (nextId s) fs s Hfs Hu
              (makeId_truthy _) (turnState_start r s Hb Ha)) as (Hts & Hbuf).
  rewrite Hb in Hbuf. simpl in Hbuf. split; [exact Hbuf|].
  unfold turnState in Hts. rewrite Hbuf in Hts.
  split; intros Hink; rewrite Hink in Hts.
  - destruct Hts as (Hm & Hid). split_and!; [done..|].
    intros Hnone. rewrite Hm, inProgress_app, Hnone. simpl.
    unfold inProgress. rewrite filter_cons_True by done. done.
  - by destruct Hts as (Hm & Hid & _).
Qed.

Lemma fragments_concatenate_witness :
  inProgress user (messages (deliver user [lit " sal"; lit "aam"; lit "aam"] exampleOpen))
  = [mkMessage (nextId exampleOpen) user (lit " salaamaam") true].
Proof.
  pose proof (fragments_concatenate user [lit " sal"; lit "aam"; lit "aam"] exampleOpen)
    as H.
  destruct H as (_ & H & _).
  - repeat constructor; discriminate.
  - reflexivity.
  - reflexivity.
  - reflexivity.
  - destruct (H eq_refl) as (_ & _ & Hp). apply Hp. reflexivity.
Defined.

(** C2 as it is written fails on a turn of white space: one non-empty
    fragment, and no message in progress for the role afterwards. *)
Lemma fragments_concatenate_counterexample :
  Forall (fun f => f ≠ []) [lit " "] ∧
  ¬ exists m, inProgress user (messages (deliver user [lit " "] exampleOpen)) = [m] ∧
              text m = concat [lit " "].
Proof.
  split; [repeat constructor; discriminate|].
  intros (m & Hm & _). vm_compute in Hm. discriminate Hm.
Qed.

(** ** The end of a turn *)

Lemma updateMessage_final_tracked rl txt s tid i m :
  activeId rl (activeMessageIds s) = Some tid -> truthy tid = true ->
  findIndex (fun m' => bool_decide (id m' = tid)) (messages s) = Some i ->
  messages s !! i = Some m ->
  messages (updateMessage rl txt true s)
  = <[i := mkMessage tid (role m) txt false]> (messages s) ∧
  activeMessageIds (updateMessage rl txt true s)
  = setActiveId rl None (activeMessageIds s).
Proof.
  intros Ha Ht Hi Hm.
  destruct (updateMessage_tracked rl txt true s tid Ha Ht) as (-> & -> & _).
  split; [|done].
  destruct (upsert_found tid rl txt true (messages s) i Hi) as (m' & Hm' & _ & ->).
  rewrite Hm in Hm'. by injection Hm' as <-.
Qed.

Lemma updateMessage_final_fresh rl txt s :
  activeId rl (activeMessageIds s) = None -> hasInk txt = true ->
  unused (nextId s) (messages s) ->
  messages (updateMessage rl txt true s)
  = messages s ++ [mkMessage (nextId s) rl txt false] ∧
  activeMessageIds (updateMessage rl txt true s)
  = setActiveId rl None (activeMessageIds s).
Proof.
  intros Ha Ht Hu.
  destruct (updateMessage_fresh rl txt true s) as (-> & -> & _);
    [by rewrite Ha|done|].
  by rewrite upsert_unused.
Qed.

Lemma commitTurn_nonempty r s :
  buffer r s ≠ [] ->
  commitTurn r s = set_buffer r [] (updateMessage r (buffer r s) true s).
Proof. intros H%truthy_true. unfold commitTurn. by rewrite H. Qed.

Lemma commitTurn_fields r s :
  buffer r s ≠ [] ->
  buffer r (commitTurn r s) = [] ∧
  messages (commitTurn r s) = messages (updateMessage r (buffer r s) true s) ∧
  activeMessageIds (commitTurn r s)
  = activeMessageIds (updateMessage r (buffer r s) true s) ∧
  idsDrawn (commitTurn r s) = idsDrawn (updateMessage r (buffer r s) true s).
Proof.
  intros H. rewrite commitTurn_nonempty by done.
  destruct (set_buffer_fields r [] (updateMessage r (buffer r s) true s))
    as (-> & -> & -> & _).
  by rewrite buffer_set.
Qed.

(** C3, as the code has it.  The turn-complete signal runs the branch
    of the user, then the branch of the model.  The branch of a role whose
    buffer is not empty always empties the buffer.  When
    the role has an active id, the message with that id is made final with
    the buffer as its text, no other entry of the list changes and none is
    added, and the tracker is reset.  Without an active id, a buffer with
    ink yields one new final message, and a buffer of white space leaves
    the list as it is: nothing is finalized. *)
Theorem turnComplete_finalizes (r : Role) (s : State) :
  buffer r s ≠ [] ->
  onmessage turnCompleteMsg s = commitTurn model (commitTurn user s) ∧
  buffer r (commitTurn r s) = [] ∧
  (forall tid i m,
     activeId r (activeMessageIds s) = Some tid -> truthy tid = true ->
     findIndex (fun m' => bool_decide (id m' = tid)) (messages s) = Some i ->
     messages s !! i = Some m ->
     messages (commitTurn r s)
     = <[i := mkMessage tid (role m) (buffer r s) false]> (messages s) ∧
     activeId r (activeMessageIds (commitTurn r s)) = None) ∧
  (activeId r (activeMessageIds s) = None -> hasInk (buffer r s) = true ->
   unused (nextId s) (messages s) ->
     messages (commitTurn r s)
     = messages s ++ [mkMessage (nextId s) r (buffer r s) false] ∧
     activeId r (activeMessageIds (commitTurn r s)) = None) ∧
  (activeId r (activeMessageIds s) = None -> hasInk (buffer r s) = false ->
     messages (commitTurn r s) = messages s ∧
     activeId r (activeMessageIds (commitTurn r s)) = None).
Proof.
  intros Hb. destruct (commitTurn_fields r s Hb) as (Hbuf & -> & -> & _).
  split_and!; [done|exact Hbuf|..].
  - intros tid i m Ha Ht Hi Hm.
    destruct (updateMessage_final_tracked r (buffer r s) s tid i m Ha Ht Hi Hm)
      as (-> & ->).
    by rewrite activeId_set.
  - intros Ha Hink Hu.
    destruct (updateMessage_final_fresh r (buffer r s) s Ha Hink Hu) as (-> & ->).
    by rewrite activeId_set.
  - intros Ha Hink. rewrite updateMessage_blank; [done|by rewrite Ha|done].
Qed.

Lemma turnComplete_finalizes_witness :
  buffer user exampleMidTurn ≠ [] ∧
  messages (commitTurn user exampleMidTurn)
  = [mkMessage (makeId (exampleEntropy 0)) user (lit "salaam") false;
     mkMessage (makeId (exampleEntropy 1)) model (lit "hello") true] ∧
  activeId user (activeMessageIds (commitTurn user exampleMidTurn)) = None.
Proof.
  assert (buffer user exampleMidTurn ≠ []) as Hb by (vm_compute; discriminate).
  split; [exact Hb|].
  destruct (turnComplete_finalizes user exampleMidTurn Hb) as (_ & _ & H & _).
  exact (H (makeId (exampleEntropy 0)) 0%nat
           (mkMessage (makeId (exampleEntropy 0)) user (lit "salaam") true)
           eq_refl eq_refl eq_refl eq_refl).
Defined.

(** C3 as it is written fails when the buffer holds white space only:
    it is not empty, and the turn-complete signal marks no message final. *)
Lemma turnComplete_finalizes_counterexample :
  buffer user (exampleBlankTurn user) ≠ [] ∧
  ¬ exists m, m ∈ messages (onmessage turnCompleteMsg (exampleBlankTurn user)) ∧
              role m = user ∧ isPartial m = false.
Proof.
  split; [vm_compute; discriminate|].
  intros (m & Hm & _). vm_compute in Hm. by apply elem_of_nil in Hm.
Qed.

Lemma onInterrupted_cases (s : State) :
  currentOutputTextRef s ≠ [] ->
  currentOutputTextRef (onInterrupted s) = [] ∧
  (forall tid i m,
     ids_model (activeMessageIds s) = Some tid -> truthy tid = true ->
     findIndex (fun m' => bool_decide (id m' = tid)) (messages s) = Some i ->
     messages s !! i = Some m ->
     messages (onInterrupted s)
     = <[i := mkMessage tid (role m) (currentOutputTextRef s ++ lit " ...") false]>
         (messages s) ∧
     ids_model (activeMessageIds (onInterrupted s)) = None) ∧
  (ids_model (activeMessageIds s) = None -> unused (nextId s) (messages s) ->
     messages (onInterrupted s)
     = messages s ++
       [mkMessage (nextId s) model (currentOutputTextRef s ++ lit " ...") false] ∧
     ids_model (activeMessageIds (onInterrupted s)) = None).
Proof.
  intros Hb%truthy_true. unfold onInterrupted. rewrite Hb. simpl.
  split_and!; [done| |].
  - intros tid i m Ha Ht Hi Hm.
    by destruct (updateMessage_final_tracked model
      (currentOutputTextRef s ++ interruptionMarker) s tid i m Ha Ht Hi Hm)
      as (-> & ->).
  - intros Ha Hu.
    by destruct (updateMessage_final_fresh model
      (currentOutputTextRef s ++ interruptionMarker) s Ha (hasInk_marker _) Hu)
      as (-> & ->).
Qed.

(** A server message that carries turn-complete and the interruption
    together: the buffer is empty once the turn is committed, so the
    interruption branch finds nothing to mark. *)
Lemma onInterrupted_after_turnComplete s :
  onInterrupted (onTurnComplete s) = onTurnComplete s.
Proof.
  unfold onTurnComplete. set (s1 := commitTurn user s).
  assert (currentOutputTextRef (commitTurn model s1) = []) as Hb.
  { unfold commitTurn. simpl. destruct (truthy (currentOutputTextRef s1)) eqn:E.
    - done.
    - by destruct (currentOutputTextRef s1). }
  unfold onInterrupted. by rewrite Hb.
Qed.

(** C5. The interruption signal with the model's buffer not empty empties
    the buffer.  The message in progress (the one the model's active id
    names) becomes final with the buffer followed by " ..." as its text, no
    other entry of the list changes, and the tracker is reset.  Without an
    active id the same text goes into one new final message. *)
Theorem interruption_finalizes (s : State) :
  currentOutputTextRef s ≠ [] ->
  onmessage interruptedMsg s = onInterrupted s ∧
  currentOutputTextRef (onmessage interruptedMsg s) = [] ∧
  (forall tid i m,
     ids_model (activeMessageIds s) = Some tid -> truthy tid = true ->
     findIndex (fun m' => bool_decide (id m' = tid)) (messages s) = Some i ->
     messages s !! i = Some m ->
     messages (onmessage interruptedMsg s)
     = <[i := mkMessage tid (role m) (currentOutputTextRef s ++ lit " ...") false]>
         (messages s) ∧
     ids_model (activeMessageIds (onmessage interruptedMsg s)) = None) ∧
  (ids_model (activeMessageIds s) = None -> unused (nextId s) (messages s) ->
     messages (onmessage interruptedMsg s)
     = messages s ++
       [mkMessage (nextId s) model (currentOutputTextRef s ++ lit " ...") false] ∧
     ids_model (activeMessageIds (onmessage interruptedMsg s)) = None).
Proof.
  intros Hb. rewrite onmessage_interrupted. split; [done|].
  by apply onInterrupted_cases.
Qed.

Lemma interruption_finalizes_witness :
  currentOutputTextRef exampleMidTurn ≠ [] ∧
  messages (onmessage interruptedMsg exampleMidTurn)
  = [mkMessage (makeId (exampleEntropy 0)) user (lit "salaam") true;
     mkMessage (makeId (exampleEntropy 1)) model (lit "hello ...") false] ∧
  currentOutputTextRef (onmessage interruptedMsg exampleMidTurn) = [].
Proof.
  assert (currentOutputTextRef exampleMidTurn ≠ []) as Hb
    by (vm_compute; discriminate).
  split; [exact Hb|].
  destruct (interruption_finalizes exampleMidTurn Hb) as (_ & Hbuf & H & _).
  split; [|exact Hbuf].
  exact (proj1 (H (makeId (exampleEntropy 1)) 1%nat
           (mkMessage (makeId (exampleEntropy 1)) model (lit "hello") true)
           eq_refl eq_refl eq_refl eq_refl)).
Defined.

(** ** Turns of white space *)

Lemma deliver_blank r fs s :
  Forall (fun f => f ≠ []) fs ->
  activeId r (activeMessageIds s) = None ->
  hasInk (buffer r s ++ concat fs) = false ->
  messages (deliver r fs s) = messages s ∧
  activeMessageIds (deliver r fs s) = activeMessageIds s ∧
  idsDrawn (deliver r fs s) = idsDrawn s ∧
  buffer r (deliver r fs s) = buffer r s ++ concat fs.
Proof.
  intros Hfs. revert s. induction Hfs as [|f fs Hf Hfs IH]; intros s Ha Hink.
  - simpl. by rewrite app_nil_r.
  - rewrite deliver_cons. simpl in Hink. rewrite app_assoc in Hink.
    assert (hasInk (buffer r s ++ f) = false) as Hink1.
    { rewrite hasInk_app in Hink. by apply orb_false_iff in Hink as [-> _]. }
    assert (onmessage (fragmentMsg r f) s = set_buffer r (buffer r s ++ f) s) as Hstep.
    { rewrite onmessage_fragment by done. apply updateMessage_blank; [|done].
      destruct (set_buffer_fields r (buffer r s ++ f) s) as (_ & -> & _).
      by rewrite Ha. }
    destruct (set_buffer_fields r (buffer r s ++ f) s) as (Hm & Hid & Hn & _).
    destruct (IH (onmessage (fragmentMsg r f) s)) as (-> & -> & -> & ->).
    + by rewrite Hstep, Hid.
    + by rewrite Hstep, buffer_set.
    + rewrite Hstep, buffer_set, Hm, Hid, Hn. simpl. by rewrite app_assoc.
Qed.

Lemma hasInk_prefix (fs1 fs2 : list jsstring) :
  hasInk (concat (fs1 ++ fs2)) = false -> hasInk (concat fs1) = false.
Proof.
  rewrite concat_app, hasInk_app. by intros [-> _]%orb_false_iff.
Qed.

(** [updateMessage] draws an id exactly when the role has no usable
    active id and the text holds a character that is not white space. *)
Lemma updateMessage_draws rl txt isFinal s :
  idsDrawn (updateMessage rl txt isFinal s) ≠ idsDrawn s <->
  truthy_opt (activeId rl (activeMessageIds s)) = false ∧ hasInk txt = true.
Proof.
  destruct (truthy_opt (activeId rl (activeMessageIds s))) eqn:Ha.
  - destruct (activeId rl (activeMessageIds s)) as [tid|] eqn:Hid; [|done].
    destruct (updateMessage_tracked rl txt isFinal s tid Hid Ha) as (_ & _ & ->).
    split; [done|]. by intros [? _].
  - destruct (hasInk txt) eqn:Ht.
    + destruct (updateMessage_fresh rl txt isFinal s Ha Ht) as (_ & _ & ->).
      split; [done|]. intros _. lia.
    + rewrite updateMessage_blank by done. split; [done|]. by intros [_ ?].
Qed.

(** C10, as the code has it.  A turn of a role whose fragments are all
    white space, from the start of the turn: no message is created while
    the fragments are handled, and none at the turn-complete signal that
    follows, although the buffer is not empty then; the list is the one
    before the turn, no id was drawn, and the buffer is emptied.  And
    [updateMessage] draws a new id only for a text that holds a character
    that is not white space. *)
Theorem blank_turn_creates_no_message (r : Role) (fs : list jsstring) (s : State) :
  Forall (fun f => f ≠ []) fs -> hasInk (concat fs) = false ->
  buffer r s = [] -> activeId r (activeMessageIds s) = None ->
  (forall fs1 fs2, fs = fs1 ++ fs2 -> messages (deliver r fs1 s) = messages s) ∧
  buffer r (deliver r fs s) = concat fs ∧
  messages (commitTurn r (deliver r fs s)) = messages s ∧
  idsDrawn (commitTurn r (deliver r fs s)) = idsDrawn s ∧
  activeId r (activeMessageIds (commitTurn r (deliver r fs s))) = None ∧
  buffer r (commitTurn r (deliver r fs s)) = [] ∧
  (forall rl txt isFinal s0,
     idsDrawn (updateMessage rl txt isFinal s0) ≠ idsDrawn s0 -> hasInk txt = true).
Proof.
  intros Hfs Hink Hb Ha.
  assert (forall fs1 fs2, fs = fs1 ++ fs2 ->
    messages (deliver r fs1 s) = messages s) as Hpre.
  { intros fs1 fs2 ->. apply deliver_blank; [|done|].
    - by apply Forall_app in Hfs as [? _].
    - rewrite Hb. simpl. by apply hasInk_prefix in Hink. }
  destruct (deliver_blank r fs s Hfs Ha) as (Hm & Hid & Hn & Hbuf);
    [by rewrite Hb|].
  rewrite Hb in Hbuf. simpl in Hbuf.
  split_and!; [exact Hpre|exact Hbuf|..].
  - unfold commitTurn. destruct (truthy (buffer r (deliver r fs s))); [|done].
    destruct (set_buffer_fields r []
      (updateMessage r (buffer r (deliver r fs s)) true (deliver r fs s))) as (-> & _).
    rewrite updateMessage_blank; [done|by rewrite Hid, Ha|by rewrite Hbuf].
  - unfold commitTurn. destruct (truthy (buffer r (deliver r fs s))); [|done].
    destruct (set_buffer_fields r []
      (updateMessage r (buffer r (deliver r fs s)) true (deliver r fs s)))
      as (_ & _ & -> & _).
    rewrite updateMessage_blank; [done|by rewrite Hid, Ha|by rewrite Hbuf].
  - unfold commitTurn. destruct (truthy (buffer r (deliver r fs s))); [|by rewrite Hid].
    destruct (set_buffer_fields r []
      (updateMessage r (buffer r (deliver r fs s)) true (deliver r fs s)))
      as (_ & -> & _).
    rewrite updateMessage_blank; [by rewrite Hid|by rewrite Hid, Ha|by rewrite Hbuf].
  - unfold commitTurn. destruct (truthy (buffer r (deliver r fs s))) eqn:Ht.
    + by rewrite buffer_set.
    + rewrite Hbuf in *. by destruct (concat fs).
  - intros rl txt isFinal s0 H. by apply updateMessage_draws in H as [_ ?].
Qed.

Lemma blank_turn_creates_no_message_witness :
  messages (commitTurn model (deliver model [lit " "; lit "  "] exampleOpen))
  = messages exampleOpen ∧
  buffer model (deliver model [lit " "; lit "  "] exampleOpen) = lit "   ".
Proof.
  destruct (blank_turn_creates_no_message model [lit " "; lit "  "] exampleOpen)
    as (_ & Hb & Hm & _).
  - repeat constructor; discriminate.
  - reflexivity.
  - reflexivity.
  - reflexivity.
  - split; [exact Hm|exact Hb].
Defined.

(** C10 as it is written fails for the model when the turn ends on an
    interruption: the text handed to [updateMessage] is the buffer followed
    by the marker, which is never blank, so a message is created. *)
Lemma blank_turn_creates_no_message_counterexample :
  Forall (fun f => f ≠ []) [lit " "] ∧ hasInk (concat [lit " "]) = false ∧
  messages exampleOpen = [] ∧
  messages (onmessage interruptedMsg (deliver model [lit " "] exampleOpen))
  = [mkMessage (nextId exampleOpen) model (lit "  ...") false].
Proof.
  split; [repeat constructor; discriminate|]. by vm_compute.
Qed.

(** ** What every reachable state satisfies *)

Lemma role_cases (r r' : Role) : r' = r ∨ r' = otherRole r.
Proof. destruct r, r'; auto. Qed.

Lemma otherRole_ne r : otherRole r ≠ r.
Proof. by destruct r. Qed.

Lemma consistent_tracked s r tid :
  consistent s -> activeId r (activeMessageIds s) = Some tid ->
  exists i, messages s !! i = Some (mkMessage tid r (buffer r s) true) ∧
    findIndex (fun m => bool_decide (id m = tid)) (messages s) = Some i ∧
    truthy tid = true ∧ hasInk (buffer r s) = true.
Proof.
  intros Hc Ha. pose proof (ids_active s Hc r) as Hr. rewrite Ha in Hr.
  destruct Hr as (Hin & Hink).
  destruct (list_elem_of_lookup_1 _ _ Hin) as [i Hi]. exists i.
  split_and!; [done| |..|done].
  - apply (findIndex_nodup (messages s) i (mkMessage tid r (buffer r s) true));
      [apply (ids_nodup s Hc)|done].
  - destruct (ids_drawn s Hc _ Hin) as (k & _ & Hk). simpl in Hk. rewrite Hk.
    apply makeId_truthy.
Qed.

Lemma consistent_unused s :
  distinctIds (entropy s) -> consistent s -> unused (nextId s) (messages s).
Proof.
  intros Hd Hc. apply unused_spec. intros (m & Hm & Hin)%list_elem_of_fmap.
  destruct (ids_drawn s Hc m Hin) as (k & Hk & Hid).
  unfold nextId in Hm. rewrite Hid in Hm. apply Hd in Hm. lia.
Qed.

Lemma consistent_same_list s s' :
  consistent s ->
  messages s' = messages s -> idsDrawn s' = idsDrawn s -> entropy s' = entropy s ->
  (forall r,
     (activeId r (activeMessageIds s') = activeId r (activeMessageIds s) ∧
      buffer r s' = buffer r s) ∨
     (activeId r (activeMessageIds s') = None ∧ hasInk (buffer r s') = false)) ->
  consistent s'.
Proof.
  intros Hc Hm Hn He Hr. split.
  - rewrite Hm. apply (ids_nodup s Hc).
  - rewrite Hm, Hn, He. apply (ids_drawn s Hc).
  - intros r. destruct (Hr r) as [[-> ->]|[-> ->]]; [|done].
    rewrite Hm. apply (ids_active s Hc).
Qed.

Lemma consistent_rewrite s s' r tid i txt partial :
  consistent s ->
  messages s !! i = Some (mkMessage tid r (buffer r s) true) ->
  messages s' = <[i := mkMessage tid r txt partial]> (messages s) ->
  idsDrawn s' = idsDrawn s -> entropy s' = entropy s ->
  buffer (otherRole r) s' = buffer (otherRole r) s ->
  activeId (otherRole r) (activeMessageIds s')
  = activeId (otherRole r) (activeMessageIds s) ->
  match activeId r (activeMessageIds s') with
  | Some t' => t' = tid ∧ partial = true ∧ txt = buffer r s' ∧ hasInk txt = true
  | None => hasInk (buffer r s') = false
  end ->
  consistent s'.
Proof.
  intros Hc Hi Hm Hn He Hbo Hao Hr.
  assert (i < length (messages s))%nat as Hlt by (by eapply lookup_lt_Some).
  split.
  - rewrite Hm, list_fmap_insert. simpl. rewrite list_insert_id.
    + apply (ids_nodup s Hc).
    + by rewrite list_lookup_fmap, Hi.
  - intros m Hin. rewrite Hn, He. rewrite Hm in Hin.
    destruct (list_elem_of_lookup_1 _ _ Hin) as [j Hj].
    destruct (decide (i = j)) as [<-|Hne].
    + rewrite list_lookup_insert_eq in Hj by done. injection Hj as <-.
      apply (ids_drawn s Hc (mkMessage tid r (buffer r s) true)).
      by eapply list_elem_of_lookup_2.
    + rewrite list_lookup_insert_ne in Hj by done.
      apply (ids_drawn s Hc). by eapply list_elem_of_lookup_2.
  - intros r'. destruct (role_cases r r') as [->| ->].
    + destruct (activeId r (activeMessageIds s')) as [t'|]; [|done].
      destruct Hr as (-> & -> & -> & Hink). split; [|done].
      rewrite Hm. by apply list_elem_of_insert.
    + rewrite Hao, Hbo. pose proof (ids_active s Hc (otherRole r)) as Ho.
      destruct (activeId (otherRole r) (activeMessageIds s)) as [t'|]; [|done].
      destruct Ho as (Hin & Hink). split; [|done].
      destruct (list_elem_of_lookup_1 _ _ Hin) as [j Hj].
      assert (i ≠ j) as Hne.
      { intros <-. rewrite Hi in Hj. injection Hj as _ Hrole _.
        by apply (otherRole_ne r). }
      rewrite Hm. eapply list_elem_of_lookup_2.
      by rewrite list_lookup_insert_ne.
Qed.

Lemma consistent_push s s' r txt partial :
  consistent s -> distinctIds (entropy s) ->
  messages s' = messages s ++ [mkMessage (nextId s) r txt partial] ->
  idsDrawn s' = S (idsDrawn s) -> entropy s' = entropy s ->
  buffer (otherRole r) s' = buffer (otherRole r) s ->
  activeId (otherRole r) (activeMessageIds s')
  = activeId (otherRole r) (activeMessageIds s) ->
  match activeId r (activeMessageIds s') with
  | Some t' => t' = nextId s ∧ partial = true ∧ txt = buffer r s' ∧ hasInk txt = true
  | None => hasInk (buffer r s') = false
  end ->
  consistent s'.
Proof.
  intros Hc Hd Hm Hn He Hbo Hao Hr.
  pose proof (consistent_unused s Hd Hc) as Hu. apply unused_spec in Hu.
  split.
  - rewrite Hm, fmap_app. apply NoDup_app. split_and!.
    + apply (ids_nodup s Hc).
    + intros x Hx ->%list_elem_of_singleton. done.
    + apply NoDup_singleton.
  - intros m Hin. rewrite Hn, He. rewrite Hm in Hin.
    apply elem_of_app in Hin as [Hin| ->%list_elem_of_singleton].
    + destruct (ids_drawn s Hc m Hin) as (k & Hk & Hid). exists k. split; [lia|done].
    + exists (idsDrawn s). split; [lia|done].
  - intros r'. destruct (role_cases r r') as [->| ->].
    + destruct (activeId r (activeMessageIds s')) as [t'|]; [|done].
      destruct Hr as (-> & -> & -> & Hink). split; [|done].
      rewrite Hm. apply elem_of_app. right. by apply list_elem_of_singleton.
    + rewrite Hao, Hbo. pose proof (ids_active s Hc (otherRole r)) as Ho.
      destruct (activeId (otherRole r) (activeMessageIds s)) as [t'|]; [|done].
      destruct Ho as (Hin & Hink). split; [|done].
      rewrite Hm. apply elem_of_app. by left.
Qed.

Lemma entropy_updateMessage rl txt isFinal s :
  entropy (updateMessage rl txt isFinal s) = entropy s.
Proof.
  destruct (updateMessage_sameSession rl txt isFinal s) as (Hs & _).
  unfold sameSession in Hs. tauto.
Qed.

(** The end of a turn of [r], whatever text is written into its message. *)
Lemma consistent_finalize r txt s :
  distinctIds (entropy s) -> consistent s ->
  consistent (set_buffer r [] (updateMessage r txt true s)).
Proof.
  intros Hd Hc.
  set (s1 := updateMessage r txt true s). set (s' := set_buffer r [] s1).
  destruct (set_buffer_fields r [] s1) as (Hm' & Ha' & Hn' & He' & _).
  fold s' in Hm', Ha', Hn', He'.
  assert (buffer r s' = []) as Hb' by apply buffer_set.
  assert (buffer (otherRole r) s' = buffer (otherRole r) s) as Hbo.
  { unfold s', s1. by rewrite buffer_set_other, buffer_updateMessage. }
  assert (entropy s' = entropy s) as He
    by (rewrite He'; apply entropy_updateMessage).
  destruct (activeId r (activeMessageIds s)) as [tid|] eqn:Ha.
  - destruct (consistent_tracked s r tid Hc Ha) as (i & Hi & Hfind & Ht & Hink).
    destruct (updateMessage_final_tracked r txt s tid i _ Ha Ht Hfind Hi) as (Hm1 & Ha1).
    destruct (updateMessage_tracked r txt true s tid Ha Ht) as (_ & _ & Hn1).
    fold s1 in Hm1, Ha1, Hn1. simpl in Hm1.
    apply (consistent_rewrite s s' r tid i txt false Hc Hi).
    + by rewrite Hm', Hm1.
    + by rewrite Hn', Hn1.
    + done.
    + done.
    + by rewrite Ha', Ha1, activeId_set_other.
    + by rewrite Ha', Ha1, activeId_set, Hb'.
  - destruct (hasInk txt) eqn:Hink.
    + destruct (updateMessage_final_fresh r txt s Ha Hink (consistent_unused s Hd Hc))
        as (Hm1 & Ha1).
      destruct (updateMessage_fresh r txt true s) as (_ & _ & Hn1);
        [by rewrite Ha|done|].
      fold s1 in Hm1, Ha1, Hn1.
      apply (consistent_push s s' r txt false Hc Hd).
      * by rewrite Hm', Hm1.
      * by rewrite Hn', Hn1.
      * done.
      * done.
      * by rewrite Ha', Ha1, activeId_set_other.
      * by rewrite Ha', Ha1, activeId_set, Hb'.
    + assert (s1 = s) as Hs1.
      { unfold s1. apply updateMessage_blank; [by rewrite Ha|done]. }
      rewrite Hs1 in *.
      apply (consistent_same_list s s' Hc); [done..|].
      intros r'. destruct (role_cases r r') as [->| ->].
      * right. by rewrite Ha', Ha, Hb'.
      * left. by rewrite Ha', Hbo.
Qed.

(** One more fragment in a turn of [r]. *)
Lemma consistent_extend r f s :
  distinctIds (entropy s) -> consistent s ->
  consistent (updateMessage r (buffer r s ++ f) false
                (set_buffer r (buffer r s ++ f) s)).
Proof.
  intros Hd Hc.
  set (b := buffer r s ++ f). set (s1 := set_buffer r b s).
  set (s' := updateMessage r b false s1).
  destruct (set_buffer_fields r b s) as (Hm1 & Ha1 & Hn1 & He1 & _).
  fold s1 in Hm1, Ha1, Hn1, He1.
  assert (buffer r s' = b) as Hb'.
  { unfold s', s1. by rewrite buffer_updateMessage, buffer_set. }
  assert (buffer (otherRole r) s' = buffer (otherRole r) s) as Hbo.
  { unfold s', s1. by rewrite buffer_updateMessage, buffer_set_other. }
  assert (entropy s' = entropy s) as He.
  { unfold s'. by rewrite entropy_updateMessage. }
  destruct (activeId r (activeMessageIds s)) as [tid|] eqn:Ha.
  - destruct (consistent_tracked s r tid Hc Ha) as (i & Hi & Hfind & Ht & Hink).
    destruct (updateMessage_tracked r b false s1 tid) as (Hm' & Ha' & Hn');
      [by rewrite Ha1|done|].
    fold s' in Hm', Ha', Hn'. rewrite Hm1 in Hm'.
    destruct (upsert_found tid r b false (messages s) i Hfind)
      as (m & Hm & _ & Hup).
    rewrite Hi in Hm. injection Hm as <-. simpl in Hup.
    apply (consistent_rewrite s s' r tid i b true Hc Hi).
    + by rewrite Hm', Hup.
    + by rewrite Hn', Hn1.
    + done.
    + done.
    + by rewrite Ha', Ha1.
    + rewrite Ha', Ha1, Ha, Hb'. split_and!; [done..|].
      unfold b. by rewrite hasInk_app, Hink.
  - pose proof (ids_active s Hc r) as Hblank. rewrite Ha in Hblank.
    assert (truthy_opt (activeId r (activeMessageIds s1)) = false) as Hno
      by (by rewrite Ha1, Ha).
    destruct (hasInk b) eqn:Hink.
    + destruct (updateMessage_fresh r b false s1 Hno Hink) as (Hm' & Ha' & Hn').
      fold s' in Hm', Ha', Hn'.
      assert (nextId s1 = nextId s) as Hnid by apply nextId_set_buffer.
      rewrite Hnid, Hm1 in Hm'. rewrite Hnid, Ha1 in Ha'. rewrite Hn1 in Hn'.
      rewrite upsert_unused in Hm' by (by apply consistent_unused).
      apply (consistent_push s s' r b true Hc Hd); [done..| |].
      * by rewrite Ha', activeId_set_other.
      * by rewrite Ha', activeId_set, Hb'.
    + assert (s' = s1) as Hs'.
      { unfold s'. by apply updateMessage_blank. }
      apply (consistent_same_list s s' Hc).
      * by rewrite Hs'.
      * by rewrite Hs'.
      * done.
      * intros r'. destruct (role_cases r r') as [->| ->].
        -- right. by rewrite Hs', Ha1, Ha, <- Hs', Hb'.
        -- left. by rewrite Hs', Ha1, <- Hs', Hbo.
Qed.

Lemma entropy_set_buffer r v s : entropy (set_buffer r v s) = entropy s.
Proof. by destruct r. Qed.

Lemma consistent_onTranscription r tr s :
  distinctIds (entropy s) -> consistent s ->
  consistent (onTranscription r tr s) ∧
  entropy (onTranscription r tr s) = entropy s.
Proof.
  intros Hd Hc. unfold onTranscription.
  destruct tr as [[[txt|]]|]; [|done..].
  destruct (truthy txt); [|done].
  rewrite buffer_set. split; [by apply consistent_extend|].
  by rewrite entropy_updateMessage, entropy_set_buffer.
Qed.

Lemma consistent_commitTurn r s :
  distinctIds (entropy s) -> consistent s ->
  consistent (commitTurn r s) ∧ entropy (commitTurn r s) = entropy s.
Proof.
  intros Hd Hc. unfold commitTurn. destruct (truthy (buffer r s)); [|done].
  split; [by apply consistent_finalize|].
  by rewrite entropy_set_buffer, entropy_updateMessage.
Qed.

Lemma consistent_onInterrupted s :
  distinctIds (entropy s) -> consistent s ->
  consistent (onInterrupted s) ∧ entropy (onInterrupted s) = entropy s.
Proof.
  intros Hd Hc. unfold onInterrupted.
  destruct (truthy (currentOutputTextRef s)); [|done].
  split; [by apply (consistent_finalize model)|].
  by rewrite (entropy_set_buffer model), entropy_updateMessage.
Qed.

Lemma consistent_onmessage msg s :
  distinctIds (entropy s) -> consistent s ->
  consistent (onmessage msg s) ∧ entropy (onmessage msg s) = entropy s.
Proof.
  intros Hd Hc. unfold onmessage. destruct (serverContent msg) as [sc|]; [|done].
  destruct (consistent_onTranscription user (inputTranscription sc) s Hd Hc)
    as (Hc1 & He1).
  set (s1 := onTranscription user (inputTranscription sc) s) in *.
  assert (distinctIds (entropy s1)) as Hd1 by (by rewrite He1).
  destruct (consistent_onTranscription model (outputTranscription sc) s1 Hd1 Hc1)
    as (Hc2 & He2).
  set (s2 := onTranscription model (outputTranscription sc) s1) in *.
  assert (distinctIds (entropy s2)) as Hd2 by (by rewrite He2).
  assert (let s3 := if turnComplete sc then onTurnComplete s2 else s2 in
          consistent s3 ∧ entropy s3 = entropy s) as (Hc3 & He3).
  { destruct (turnComplete sc); simpl; [|by rewrite He2, He1].
    unfold onTurnComplete.
    destruct (consistent_commitTurn user s2 Hd2 Hc2) as (Hcu & Heu).
    destruct (consistent_commitTurn model (commitTurn user s2)) as (Hcm & Hem);
      [by rewrite Heu|done|].
    split; [done|]. by rewrite Hem, Heu, He2, He1. }
  set (s3 := if turnComplete sc then onTurnComplete s2 else s2) in *.
  destruct (interrupted sc); [|done].
  destruct (consistent_onInterrupted s3) as (Hc4 & He4); [by rewrite He3|done|].
  split; [done|]. by rewrite He4.
Qed.

Lemma calm_fields s s' :
  messages s' = messages s -> idsDrawn s' = idsDrawn s -> entropy s' = entropy s ->
  activeMessageIds s' = activeMessageIds s ->
  currentInputTextRef s' = currentInputTextRef s ->
  currentOutputTextRef s' = currentOutputTextRef s ->
  calm s s'.
Proof.
  intros Hm Hn He Ha Hi Ho. split_and!; [done..|].
  intros r. left. rewrite Ha. by destruct r.
Qed.

Lemma calm_refl s : calm s s.
Proof. by apply calm_fields. Qed.

Lemma calm_trans s1 s2 s3 : calm s1 s2 -> calm s2 s3 -> calm s1 s3.
Proof.
  intros (Hm1 & Hn1 & He1 & Hr1) (Hm2 & Hn2 & He2 & Hr2).
  split_and!; [congruence..|].
  intros r. destruct (Hr2 r) as [[Ha Hb]|[Ha Hb]]; [|by right].
  destruct (Hr1 r) as [[Ha' Hb']|[Ha' Hb']].
  - left. by rewrite Ha, Hb.
  - right. by rewrite Ha, Hb.
Qed.

Lemma calm_consistent s s' : calm s s' -> consistent s -> consistent s'.
Proof. intros (Hm & Hn & He & Hr) Hc. by apply (consistent_same_list s s'). Qed.

Lemma calm_reset s : calm s (disconnect_reset s).
Proof. split_and!; [done..|]. intros r. right. by destruct r. Qed.

Lemma calm_spawn s p : calm s (stateOf p) -> calm s (spawn p).
Proof.
  intros H. destruct p as [s'|t s'|s']; [done| |done].
  eapply calm_trans; [exact H|]. by apply calm_fields.
Qed.

Lemma calm_disconnect_closeSession s : calm s (stateOf (disconnect_closeSession s)).
Proof.
  unfold disconnect_closeSession.
  destruct (sessionRef s); [apply calm_refl|apply calm_reset].
Qed.

Lemma calm_disconnect_stopTracks s : calm s (stateOf (disconnect_stopTracks s)).
Proof.
  unfold disconnect_stopTracks.
  eapply calm_trans; [|apply calm_disconnect_closeSession].
  destruct (sourceNodeRef s) eqn:Hs; simpl;
    destruct (processorNodeRef s) eqn:Hp; simpl; rewrite ?Hp;
    by apply calm_fields.
Qed.

Lemma calm_disconnect s : calm s (stateOf (disconnect s)).
Proof.
  unfold disconnect. simpl. destruct (inputContextRef s).
  - by apply calm_fields.
  - eapply calm_trans; [|apply calm_disconnect_stopTracks]. by apply calm_fields.
Qed.

Lemma calm_disconnect_afterSession n o s :
  calm s (stateOf (disconnect_afterSession n o s)).
Proof.
  destruct o; simpl; [|apply calm_refl].
  eapply calm_trans; [|apply calm_reset]. by apply calm_fields.
Qed.

Lemma calm_connect_catch message s : calm s (stateOf (connect_catch message s)).
Proof.
  unfold connect_catch. simpl. apply calm_spawn.
  eapply calm_trans; [|apply calm_disconnect]. by apply calm_fields.
Qed.

Lemma calm_connect env s : calm s (stateOf (connect env s)).
Proof.
  unfold connect. cbv zeta. destruct (aiRef s); [|apply calm_refl].
  destruct (constructorThrows env).
  - eapply calm_trans; [|apply calm_connect_catch]. by apply calm_fields.
  - destruct (startsSuspended env); by apply calm_fields.
Qed.

Lemma calm_resume t o s : calm s (stateOf (resume t o s)).
Proof.
  destruct t; simpl.
  - destruct o; [by apply calm_fields|apply calm_connect_catch].
  - destruct o; [by apply calm_fields|apply calm_connect_catch].
  - apply calm_disconnect_stopTracks.
  - apply calm_disconnect_afterSession.
Qed.

Lemma calm_onerror message s : calm s (onerror message s).
Proof.
  unfold onerror. apply calm_spawn.
  eapply calm_trans; [|apply calm_disconnect]. by apply calm_fields.
Qed.

Lemma calm_onopen s : calm s (onopen s).
Proof. unfold onopen. simpl. destruct (inputContextRef s); by apply calm_fields. Qed.

Lemma calm_downloadTranscript isoNow s : calm s (downloadTranscript isoNow s).
Proof.
  unfold downloadTranscript. destruct (messages s) eqn:E; [apply calm_refl|].
  by apply calm_fields.
Qed.

Lemma consistent_step ev s s' :
  distinctIds (entropy s) -> consistent s -> step ev s = Some s' ->
  consistent s' ∧ entropy s' = entropy s.
Proof.
  intros Hd Hc.
  assert (forall s1, calm s s1 -> consistent s1 ∧ entropy s1 = entropy s) as Hcalm.
  { intros s1 H. split; [by eapply calm_consistent|]. by destruct H as (_ & _ & ? & _). }
  destruct ev as [env| |isoNow|k o| |msg| |message]; simpl.
  - intros [= <-]. apply Hcalm, calm_spawn, calm_connect.
  - intros [= <-]. apply Hcalm, calm_spawn, calm_disconnect.
  - intros [= <-]. apply Hcalm, calm_downloadTranscript.
  - destruct (pending s !! k) as [t|]; [|done]. intros [= <-].
    apply Hcalm, calm_spawn.
    eapply calm_trans; [|apply calm_resume]. by apply calm_fields.
  - destruct (sessionOpened s); [|done]. intros [= <-]. apply Hcalm, calm_onopen.
  - destruct (sessionOpened s); [|done]. intros [= <-]. by apply consistent_onmessage.
  - destruct (sessionOpened s); [|done]. intros [= <-]. apply Hcalm. by apply calm_fields.
  - destruct (sessionOpened s); [|done]. intros [= <-]. apply Hcalm, calm_onerror.
Qed.

Lemma consistent_run evs s s' :
  distinctIds (entropy s) -> consistent s -> run evs s = Some s' ->
  consistent s' ∧ entropy s' = entropy s.
Proof.
  revert s. induction evs as [|ev evs IH]; intros s Hd Hc; simpl.
  - by intros [= <-].
  - destruct (step ev s) as [s1|] eqn:Hs; [|done]. intros Hr.
    destruct (consistent_step ev s s1 Hd Hc Hs) as (Hc1 & He1).
    destruct (IH s1) as (Hc' & He'); [by rewrite He1|done..|].
    split; [done|]. by rewrite He', He1.
Qed.

Lemma consistent_mount apiKey e :
  consistent (mount apiKey e) ∧ entropy (mount apiKey e) = e.
Proof.
  unfold mount, initAI. destruct (truthy_opt apiKey); (split; [|done]).
  - split; simpl; [apply NoDup_nil_2|by intros m Hm%elem_of_nil|by intros []].
  - split; simpl; [apply NoDup_nil_2|by intros m Hm%elem_of_nil|by intros []].
Qed.

Lemma consistent_from_mount apiKey e evs s :
  distinctIds e -> run evs (mount apiKey e) = Some s ->
  consistent s ∧ entropy s = e.
Proof.
  intros Hd Hr. destruct (consistent_mount apiKey e) as (Hc & He).
  destruct (consistent_run evs (mount apiKey e) s) as (Hc' & He');
    [by rewrite He|done..|].
  split; [done|]. by rewrite He', He.
Qed.

(** Every state the mounted component reaches is consistent, provided
    line 80 never yields the same id twice. *)
Theorem reachable_consistent apiKey e evs s :
  distinctIds e -> run evs (mount apiKey e) = Some s ->
  consistent s ∧ entropy s = e.
Proof. apply consistent_from_mount. Qed.

Lemma distinctIds_example : distinctIds exampleEntropy.
Proof.
  intros i j H. unfold makeId, exampleEntropy in H. simpl in H.
  apply (f_equal length) in H. simpl in H. rewrite !length_replicate in H. lia.
Qed.

(** ** The signals on reachable states *)

Lemma insert_as_fmap (l : list Message) i M x (g : Message -> Message) :
  NoDup (id <$> l) -> l !! i = Some M -> g M = x ->
  (forall m, m ∈ l -> id m ≠ id M -> g m = m) ->
  <[i := x]> l = g <$> l.
Proof.
  intros Hnd Hi Hx Hg. apply list_eq. intros j. rewrite list_lookup_fmap.
  destruct (decide (i = j)) as [<-|Hne].
  - rewrite list_lookup_insert_eq by (by eapply lookup_lt_Some).
    by rewrite Hi, <- Hx.
  - rewrite list_lookup_insert_ne by done.
    destruct (l !! j) as [m|] eqn:Hj; [|done]. simpl. f_equal. symmetry.
    apply Hg; [by eapply list_elem_of_lookup_2|].
    intros Heq. apply Hne. eapply NoDup_lookup; [exact Hnd|..];
      rewrite list_lookup_fmap.
    + by rewrite Hi.
    + rewrite Hj. simpl. by rewrite Heq.
Qed.

Lemma settle_untracked r a sfx (l : list Message) :
  activeId r a = None -> settle r a sfx <$> l = l.
Proof.
  intros Ha. rewrite <- (list_fmap_id l) at 2. apply list_fmap_ext.
  intros _ m _. unfold settle. rewrite Ha.
  rewrite bool_decide_eq_false_2; [done|]. by intros [_ ?].
Qed.

(** On a consistent state the final [updateMessage] of a turn settles
    the list. *)
Lemma finalize_settles r sfx s tid :
  consistent s -> activeId r (activeMessageIds s) = Some tid ->
  messages (updateMessage r (buffer r s ++ sfx) true s)
  = settle r (activeMessageIds s) sfx <$> messages s ∧
  activeMessageIds (updateMessage r (buffer r s ++ sfx) true s)
  = setActiveId r None (activeMessageIds s) ∧
  idsDrawn (updateMessage r (buffer r s ++ sfx) true s) = idsDrawn s.
Proof.
  intros Hc Ha.
  destruct (consistent_tracked s r tid Hc Ha) as (i & Hi & Hfind & Ht & Hink).
  destruct (updateMessage_final_tracked r (buffer r s ++ sfx) s tid i _
              Ha Ht Hfind Hi) as (-> & ->).
  destruct (updateMessage_tracked r (buffer r s ++ sfx) true s tid Ha Ht)
    as (_ & _ & ->).
  split_and!; [|done..]. simpl.
  apply (insert_as_fmap _ i (mkMessage tid r (buffer r s) true));
    [apply (ids_nodup s Hc)|done|..].
  - unfold settle. simpl. rewrite Ha. by rewrite bool_decide_eq_true_2.
  - intros m Hm Hid. unfold settle. rewrite Ha.
    rewrite bool_decide_eq_false_2; [done|]. intros [_ [= Heq]]. by apply Hid.
Qed.

Lemma commitTurn_settles r s :
  consistent s ->
  messages (commitTurn r s) = settle r (activeMessageIds s) [] <$> messages s ∧
  activeMessageIds (commitTurn r s) = setActiveId r None (activeMessageIds s) ∧
  idsDrawn (commitTurn r s) = idsDrawn s ∧
  buffer r (commitTurn r s) = [] ∧
  buffer (otherRole r) (commitTurn r s) = buffer (otherRole r) s.
Proof.
  intros Hc. pose proof (ids_active s Hc r) as Hr.
  destruct (activeId r (activeMessageIds s)) as [tid|] eqn:Ha.
  - destruct Hr as (_ & Hink).
    assert (buffer r s ≠ []) as Hb by (by apply truthy_true, hasInk_truthy).
    destruct (commitTurn_fields r s Hb) as (Hbuf & -> & -> & ->).
    rewrite commitTurn_nonempty by done.
    rewrite buffer_set_other, buffer_updateMessage.
    rewrite <- (app_nil_r (buffer r s)) at 1 2 3.
    destruct (finalize_settles r [] s tid Hc Ha) as (-> & -> & ->).
    by rewrite buffer_set.
  - rewrite settle_untracked by done.
    assert (setActiveId r None (activeMessageIds s) = activeMessageIds s) as ->.
    { rewrite <- Ha. apply setActiveId_same. }
    unfold commitTurn. destruct (truthy (buffer r s)) eqn:Hb.
    + rewrite updateMessage_blank; [|by rewrite Ha|done].
      destruct (set_buffer_fields r [] s) as (-> & -> & -> & _).
      by rewrite buffer_set, buffer_set_other.
    + split_and!; [done..| |done]. by destruct (buffer r s).
Qed.

Lemma settle_ext r a a' sfx m :
  activeId r a' = activeId r a -> settle r a' sfx m = settle r a sfx m.
Proof. intros H. unfold settle. by rewrite H. Qed.

Lemma turnComplete_settles (s : State) :
  distinctIds (entropy s) -> consistent s ->
  messages (onmessage turnCompleteMsg s)
  = settle model (activeMessageIds s) [] <$>
      (settle user (activeMessageIds s) [] <$> messages s) ∧
  length (messages (onmessage turnCompleteMsg s)) = length (messages s) ∧
  cleared (onmessage turnCompleteMsg s) ∧
  idsDrawn (onmessage turnCompleteMsg s) = idsDrawn s.
Proof.
  intros Hd Hc. rewrite onmessage_turnComplete. unfold onTurnComplete.
  destruct (commitTurn_settles user s Hc) as (Hm1 & Ha1 & Hn1 & Hb1 & Hbo1).
  destruct (consistent_commitTurn user s Hd Hc) as (Hc1 & _).
  destruct (commitTurn_settles model (commitTurn user s) Hc1)
    as (Hm2 & Ha2 & Hn2 & Hb2 & Hbo2).
  simpl in *.
  assert (messages (commitTurn model (commitTurn user s))
          = settle model (activeMessageIds s) [] <$>
              (settle user (activeMessageIds s) [] <$> messages s)) as Hm.
  { rewrite Hm2, Hm1. apply list_fmap_ext. intros _ m _.
    apply settle_ext. by rewrite Ha1. }
  split_and!.
  - exact Hm.
  - by rewrite Hm, !length_fmap.
  - unfold cleared. rewrite Hbo2, Hb1, Hb2, Ha2, Ha1. done.
  - by rewrite Hn2, Hn1.
Qed.




Lemma consistent_deliver r fs s :
  distinctIds (entropy s) -> consistent s ->
  consistent (deliver r fs s) ∧ entropy (deliver r fs s) = entropy s.
Proof.
  revert s. induction fs as [|f fs IH]; intros s Hd Hc; [done|].
  rewrite deliver_cons.
  destruct (consistent_onmessage (fragmentMsg r f) s Hd Hc) as (Hc1 & He1).
  destruct (IH (onmessage (fragmentMsg r f) s)) as (Hc2 & He2);
    [by rewrite He1|done|].
  split; [done|]. by rewrite He2.
Qed.

Lemma settle_role r a sfx m : role (settle r a sfx m) = role m.
Proof. unfold settle. by destruct (bool_decide _). Qed.

Lemma filter_settle_other (r r' : Role) a sfx (l : list Message) :
  r ≠ r' ->
  filter (fun m => role m = r) (settle r' a sfx <$> l)
  = filter (fun m => role m = r) l.
Proof.
  intros Hne. induction l as [|m l IH]; [done|].
  rewrite fmap_cons, !filter_cons, settle_role, IH.
  destruct (decide (role m = r)) as [Hr|]; [|done].
  f_equal. unfold settle. rewrite bool_decide_eq_false_2; [done|].
  intros [? _]. congruence.
Qed.

(** A turn of white space on a reachable state, ended by the
    turn-complete signal: the signal adds no message, and the messages of
    the role are those before the turn. *)
Theorem blank_turn_reachable (r : Role) (fs : list jsstring) (s : State) :
  distinctIds (entropy s) -> consistent s ->
  Forall (fun f => f ≠ []) fs -> hasInk (concat fs) = false -> buffer r s = [] ->
  filter (fun m => role m = r)
    (messages (onmessage turnCompleteMsg (deliver r fs s)))
  = filter (fun m => role m = r) (messages s) ∧
  length (messages (onmessage turnCompleteMsg (deliver r fs s)))
  = length (messages s).
Proof.
  intros Hd Hc Hfs Hink Hb.
  assert (activeId r (activeMessageIds s) = None) as Ha.
  { pose proof (ids_active s Hc r) as Hr.
    destruct (activeId r (activeMessageIds s)); [|done].
    destruct Hr as (_ & Hr). by rewrite Hb in Hr. }
  destruct (deliver_blank r fs s Hfs Ha) as (Hm & Hid & _); [by rewrite Hb|].
  destruct (consistent_deliver r fs s Hd Hc) as (Hc1 & He1).
  destruct (turnComplete_settles (deliver r fs s)) as (Hm' & Hlen & _);
    [by rewrite He1|done|].
  rewrite Hlen, Hm', Hm, Hid. split; [|done].
  destruct r.
  - rewrite filter_settle_other by done. by rewrite settle_untracked.
  - rewrite (settle_untracked model) by done. by rewrite filter_settle_other.
Qed.

(** The examples are reachable states, and the theorems on reachable
    states apply to them. *)
Lemma exampleMidTurn_consistent :
  distinctIds (entropy exampleMidTurn) ∧ consistent exampleMidTurn.
Proof.
  destruct (consistent_from_mount exampleKey exampleEntropy
    [ClickConnect (mkConnectEnv None false); Resume 0 Fulfilled; OnOpen]
    exampleOpen distinctIds_example ltac:(by vm_compute)) as (Hc & He).
  assert (distinctIds (entropy exampleOpen)) as Hd
    by (rewrite He; apply distinctIds_example).
  destruct (consistent_onmessage (fragmentMsg user (lit "salaam")) exampleOpen Hd Hc)
    as (Hc1 & He1).
  destruct (consistent_onmessage (fragmentMsg model (lit "hello"))
    (onmessage (fragmentMsg user (lit "salaam")) exampleOpen)) as (Hc2 & He2);
    [by rewrite He1|done|].
  split; [|exact Hc2]. unfold exampleMidTurn. by rewrite He2, He1.
Qed.

Lemma turnComplete_example :
  messages (onmessage turnCompleteMsg exampleMidTurn)
  = [mkMessage (makeId (exampleEntropy 0)) user (lit "salaam") false;
     mkMessage (makeId (exampleEntropy 1)) model (lit "hello") false].
Proof.
  destruct exampleMidTurn_consistent as (Hd & Hc).
  destruct (turnComplete_settles exampleMidTurn Hd Hc) as (-> & _).
  by vm_compute.
Qed.

(** [disconnect] resets the trackers but leaves the flags of the list: a
    message cut off in mid-turn stays in progress, next to the one of the
    following turn. *)
Lemma in_progress_after_disconnect_example :
  inProgress user (messages (deliver user [lit "again"] exampleDisconnected))
  = [mkMessage (makeId (exampleEntropy 0)) user (lit "salaam!") true;
     mkMessage (makeId (exampleEntropy 2)) user (lit "again") true].
Proof. by vm_compute. Qed.

(** * Further properties of the transcript *)

(** Closes a goal on concrete states by evaluation alone. *)
Ltac evaluated :=
  vm_compute; first [reflexivity | discriminate | intros; discriminate].















(** A server message that carries turn-complete and the interruption
    together is handled like the one without the interruption: the
    model's message is made final with its plain text, and no marker is
    added. *)
Theorem interruption_lost_on_turnComplete input output s :
  onmessage (serverMsg input output true true) s
  = onmessage (serverMsg input output true false) s.
Proof. unfold onmessage. simpl. apply onInterrupted_after_turnComplete. Qed.





Lemma reachable_consistent_witness :
  consistent exampleLater ∧ entropy exampleLater = exampleEntropy.
Proof.
  apply (reachable_consistent exampleKey exampleEntropy
           (exampleFirstTurn ++ exampleLaterEvents) exampleLater
           distinctIds_example).
  evaluated.
Defined.




(** * The view *)

Lemma startsWith_spec needle hay :
  startsWith needle hay = true <-> exists rest, hay = needle ++ rest.
Proof.
  revert hay. induction needle as [|c needle IH]; intros hay; simpl.
  - split; [by exists hay|done].
  - destruct hay as [|d hay]; [split; [done|by intros [? ?]]|].
    rewrite andb_true_iff, IH, N.eqb_eq. split.
    + intros [-> [rest ->]]. by exists rest.
    + intros [rest [= -> ->]]. split; [done|by exists rest].
Qed.

(** [includes] finds exactly the substrings. *)
Lemma includes_spec needle hay :
  includes needle hay = true <-> exists a b, hay = a ++ needle ++ b.
Proof.
  induction hay as [|d hay IH].
  - simpl. rewrite orb_false_r, startsWith_spec. split.
    + intros [rest ->]. by exists [], rest.
    + intros (a & b & H). symmetry in H.
      apply app_eq_nil in H as [-> H]. apply app_eq_nil in H as [-> ->].
      by exists [].
  - cbn [includes]. rewrite orb_true_iff, IH, startsWith_spec. split.
    + intros [[rest ->]|(a & b & ->)]; [by exists [], rest|by exists (d :: a), b].
    + intros ([|c a] & b & H); simpl in H.
      * left. by exists b.
      * right. injection H as -> ->. by exists a, b.
Qed.

(** The Start button is disabled exactly when an error text is shown
    that does not contain "Connection"; the comparison with "Connection
    closed" in line 374 never decides. *)
Theorem connectDisabled_spec (err : option jsstring) :
  connectDisabled err = true <->
  exists e, err = Some e ∧ e ≠ [] ∧
    ¬ exists a b, e = a ++ lit "Connection" ++ b.
Proof.
  unfold connectDisabled. destruct err as [e|]; [|split; [done|by intros (? & ? & _)]].
  rewrite !andb_true_iff, !negb_true_iff, truthy_true. split.
  - intros [[He _] Hinc]. exists e. split_and!; [done..|].
    intros Hsub%includes_spec. congruence.
  - intros (e' & [= <-] & He & Hsub). split_and!; [done| |].
    + apply bool_decide_eq_false. intros ->. apply Hsub.
      by exists [], (lit " closed").
    + apply not_true_is_false. by intros Hinc%includes_spec.
Qed.

Lemma connectDisabled_spec_witness :
  connectDisabled (Some (lit "Permission denied")) = true ∧
  connectDisabled (Some (lit "Connection closed")) = false.
Proof.
  split.
  - apply (proj2 (connectDisabled_spec (Some (lit "Permission denied")))).
    exists (lit "Permission denied"). split_and!; [done..|].
    intros Hsub%includes_spec. by vm_compute in Hsub.
  - apply not_true_is_false.
    intros (e & [= <-] & _ & Hsub)%(proj1 (connectDisabled_spec _)).
    apply Hsub. by exists [], (lit " closed").
Defined.

(** The fields a call of [disconnect] leaves alone, up to its first
    [await] and after each of them. *)
Lemma disconnect_closeSession_frame s :
  error (stateOf (disconnect_closeSession s)) = error s ∧
  isConnected (stateOf (disconnect_closeSession s)) = isConnected s ∧
  aiRef (stateOf (disconnect_closeSession s)) = aiRef s ∧
  inputContextRef (stateOf (disconnect_closeSession s)) = inputContextRef s ∧
  sessionRef (stateOf (disconnect_closeSession s)) = sessionRef s.
Proof. unfold disconnect_closeSession. by destruct (sessionRef s) eqn:E. Qed.

Lemma disconnect_stopTracks_frame s :
  error (stateOf (disconnect_stopTracks s)) = error s ∧
  isConnected (stateOf (disconnect_stopTracks s)) = isConnected s ∧
  aiRef (stateOf (disconnect_stopTracks s)) = aiRef s ∧
  inputContextRef (stateOf (disconnect_stopTracks s)) = inputContextRef s ∧
  sessionRef (stateOf (disconnect_stopTracks s)) = sessionRef s.
Proof.
  unfold disconnect_stopTracks.
  set (s2 := if processorNodeRef _ then _ else _).
  destruct (disconnect_closeSession_frame s2) as (-> & -> & -> & -> & ->).
  unfold s2. destruct (sourceNodeRef s) eqn:Hs; simpl;
    destruct (processorNodeRef s) eqn:Hp; simpl; by rewrite ?Hp.
Qed.

Lemma disconnect_frame s :
  error (stateOf (disconnect s)) = error s ∧
  isConnected (stateOf (disconnect s)) = false ∧
  aiRef (stateOf (disconnect s)) = aiRef s ∧
  inputContextRef (stateOf (disconnect s)) = inputContextRef s ∧
  sessionRef (stateOf (disconnect s)) = sessionRef s.
Proof.
  unfold disconnect. cbv zeta.
  destruct (inputContextRef (setIsConnected false s)) eqn:E; [by simpl in *|].
  destruct (disconnect_stopTracks_frame (setIsConnected false s))
    as (-> & -> & -> & -> & ->).
  done.
Qed.

Lemma spawn_frame p :
  error (spawn p) = error (stateOf p) ∧
  isConnected (spawn p) = isConnected (stateOf p) ∧
  aiRef (spawn p) = aiRef (stateOf p) ∧
  inputContextRef (spawn p) = inputContextRef (stateOf p) ∧
  sessionRef (spawn p) = sessionRef (stateOf p) ∧
  trace (spawn p) = trace (stateOf p).
Proof. by destruct p. Qed.

(** A remote error always leaves the component offline with an error
    text on screen, even when the error carries no message: the text is
    then "Connection error. Please try again.", which keeps the Start
    button enabled.  With a message of its own the button is enabled only
    if the message contains "Connection". *)
Theorem remote_error_view (message : option jsstring) (s : State) :
  isConnected (onerror message s) = false ∧
  (exists e, error (onerror message s) = Some e ∧ e ≠ [] ∧
     errorBox (render (onerror message s)) = Some (lit "Error: " ++ e) ∧
     action (render (onerror message s))
     = StartListening (negb (includes (lit "Connection") e))) ∧
  (truthy_opt message = false ->
     error (onerror message s) = Some (lit "Connection error. Please try again.") ∧
     action (render (onerror message s)) = StartListening false) ∧
  (truthy_opt message = true -> error (onerror message s) = message).
Proof.
  unfold onerror.
  set (shown := if truthy_opt message then message else _).
  destruct (spawn_frame (disconnect (setError shown s))) as (He & Hc & _).
  destruct (disconnect_frame (setError shown s)) as (He' & Hc' & _).
  assert (error (spawn (disconnect (setError shown s))) = shown) as Herr
    by (by rewrite He, He').
  assert (isConnected (spawn (disconnect (setError shown s))) = false) as Hoff
    by (by rewrite Hc, Hc').
  assert (forall e, shown = Some e -> e ≠ [] ->
    errorBox (render (spawn (disconnect (setError shown s)))) = Some (lit "Error: " ++ e) ∧
    action (render (spawn (disconnect (setError shown s))))
    = StartListening (negb (includes (lit "Connection") e))) as Hview.
  { intros e Hs Hne. unfold render. simpl. rewrite Herr, Hoff, Hs.
    apply truthy_true in Hne. rewrite Hne. split; [done|]. f_equal.
    unfold connectDisabled. rewrite Hne. simpl.
    destruct (includes (lit "Connection") e) eqn:Hinc; [by rewrite andb_false_r|].
    rewrite andb_true_r. apply negb_true_iff, bool_decide_eq_false.
    intros ->. by vm_compute in Hinc. }
  split; [exact Hoff|]. split_and!.
  - destruct (truthy_opt message) eqn:Hm.
    + destruct message as [e|]; [|done]. exists e. simpl in Hm.
      apply truthy_true in Hm. split_and!; [done..| |]; by apply Hview.
    + exists (lit "Connection error. Please try again.").
      split_and!; [done..| |]; by apply Hview.
  - intros Hm. unfold shown in *. rewrite Hm in *. split; [done|].
    by destruct (Hview _ eq_refl ltac:(done)) as (_ & ->).
  - intros Hm. unfold shown in *. by rewrite Hm in *.
Qed.

Lemma remote_error_view_witness :
  action (render (onerror (Some []) exampleMidTurn)) = StartListening false ∧
  error (onerror (Some (lit "socket hang up")) exampleMidTurn)
  = Some (lit "socket hang up").
Proof.
  destruct (remote_error_view (Some []) exampleMidTurn) as (_ & _ & H & _).
  destruct (remote_error_view (Some (lit "socket hang up")) exampleMidTurn)
    as (_ & _ & _ & H').
  split; [exact (proj2 (H eq_refl))|exact (H' eq_refl)].
Defined.

(** Without a credential the view offers nothing to click, whatever was
    tried before: the Start button is shown disabled, the error box reads
    "Error: API Key is missing.", there is no download button, and the
    placeholder is shown. *)
Theorem missing_key_view (apiKey : option jsstring) (e : nat -> IdSeed) evs s :
  truthy_opt apiKey = false -> run evs (mount apiKey e) = Some s ->
  action (render s) = StartListening true ∧
  errorBox (render s) = Some (lit "Error: API Key is missing.") ∧
  downloadButton (render s) = false ∧ placeholder (render s) = true ∧
  badge (render s) = lit "Offline" ∧
  (forall env, permitted (ClickConnect env) s = false) ∧
  permitted ClickDisconnect s = false ∧
  (forall isoNow, permitted (ClickDownload isoNow) s = false).
Proof.
  intros Hk Hr. apply (run_keyless _ _ _ _ Hk) in Hr. subst s.
  rewrite (mount_keyless _ _ Hk). by vm_compute.
Qed.

Lemma missing_key_view_witness :
  action (render (mount (Some []) exampleEntropy)) = StartListening true.
Proof.
  exact (proj1 (missing_key_view (Some []) exampleEntropy
                  [ClickConnect (mkConnectEnv None false); ClickDisconnect]
                  (mount (Some []) exampleEntropy) eq_refl eq_refl)).
Defined.

Lemma userStep_disabled ev s s' :
  isConnected s = false -> connectDisabled (error s) = true ->
  userStep ev s = Some s' ->
  isConnected s' = false ∧ error s' = error s.
Proof.
  intros Hoff Hdis.
  destruct ev as [env| |isoNow|k o| |msg| |message]; simpl; try done.
  - by rewrite Hoff, Hdis.
  - by rewrite Hoff.
  - destruct (negb _); [|done]. intros [= <-].
    unfold downloadTranscript. by destruct (messages s).
  - destruct (pending s !! k) as [t|]; [|done].
    destruct (isDisconnectTask t) eqn:Ht; [|done]. intros [= <-].
    destruct (spawn_frame (resume t o (set_pending (delete k (pending s)) s)))
      as (-> & -> & _).
    destruct t; try done; simpl.
    + by destruct (disconnect_stopTracks_frame
        (set_pending (delete k (pending s)) s)) as (-> & -> & _).
    + by destruct o.
Qed.

(** While the Start button is disabled, nothing the user may click and
    no suspended [disconnect] that is resumed enables it again: the
    component stays offline with the same error. *)
Theorem disabled_start_stays_disabled evs s s' :
  isConnected s = false -> connectDisabled (error s) = true ->
  userRun evs s = Some s' ->
  action (render s') = StartListening true ∧ error s' = error s.
Proof.
  revert s. induction evs as [|ev evs IH]; intros s Hoff Hdis; simpl.
  - intros [= <-]. unfold render. simpl. by rewrite Hoff, Hdis.
  - destruct (userStep ev s) as [s1|] eqn:Hs; [|done]. intros Hr.
    destruct (userStep_disabled ev s s1 Hoff Hdis Hs) as (Hoff1 & He1).
    destruct (IH s1) as (Ha & He); [done|by rewrite He1|done|].
    split; [done|]. by rewrite He.
Qed.

Lemma disabled_start_stays_disabled_witness :
  error exampleRefused = Some (lit "Permission denied") ∧
  (exists s', userRun [Resume 0 Fulfilled] exampleRefused
              = Some s' ∧
     action (render s') = StartListening true).
Proof.
  split; [evaluated|].
  destruct (userRun [Resume 0 Fulfilled] exampleRefused)
    as [s'|] eqn:Hr; [|by vm_compute in Hr].
  exists s'. split; [done|].
  apply (disabled_start_stays_disabled
           [Resume 0 Fulfilled] exampleRefused s');
    [evaluated..|exact Hr].
Defined.



(** * The life cycle of a session *)

Lemma countIf_app {A} (p : A -> bool) l l' :
  countIf p (l ++ l') = (countIf p l + countIf p l')%nat.
Proof. unfold countIf. by rewrite List.filter_app, length_app. Qed.

Lemma countIf_delete {A} (p : A -> bool) (l : list A) k t :
  l !! k = Some t ->
  countIf p l = (countIf p (delete k l) + if p t then 1 else 0)%nat.
Proof.
  revert k. induction l as [|a l IH]; intros [|k]; simpl; try done.
  - intros [= ->]. unfold countIf. simpl. destruct (p t); simpl; lia.
  - intros Hk. specialize (IH k Hk). unfold countIf in *. simpl.
    destruct (p a); simpl; lia.
Qed.

Ltac count_effects :=
  unfold backed, sessionsOpened, awaitingMicrophone, microphoneRequests,
    awaitingResume, contextsCreated in *;
  simpl in *; rewrite ?countIf_app in *; unfold countIf in *; simpl in *.

Lemma backed_disconnect_closeSession s :
  backed s -> backed (spawn (disconnect_closeSession s)).
Proof.
  unfold disconnect_closeSession. destruct (sessionRef s); count_effects; lia.
Qed.

Lemma backed_disconnect_stopTracks s :
  backed s -> backed (spawn (disconnect_stopTracks s)).
Proof.
  intros H. unfold disconnect_stopTracks. apply backed_disconnect_closeSession.
  destruct (sourceNodeRef s) eqn:Hs; simpl;
    destruct (processorNodeRef s) eqn:Hp; simpl; rewrite ?Hp;
    count_effects; lia.
Qed.

Lemma backed_disconnect s : backed s -> backed (spawn (disconnect s)).
Proof.
  intros H. unfold disconnect. cbv zeta.
  destruct (inputContextRef (setIsConnected false s)).
  - count_effects; lia.
  - apply backed_disconnect_stopTracks. count_effects; lia.
Qed.

Lemma backed_connect_catch message s :
  backed s -> backed (spawn (connect_catch message s)).
Proof.
  intros H. unfold connect_catch. simpl. apply backed_disconnect.
  count_effects; lia.
Qed.

Lemma backed_connect env s : backed s -> backed (spawn (connect env s)).
Proof.
  intros H. unfold connect. cbv zeta. destruct (aiRef s); [|done].
  destruct (constructorThrows env).
  - apply backed_connect_catch. count_effects; lia.
  - destruct (startsSuspended env); count_effects; lia.
Qed.

Lemma backed_resume k t o s :
  backed s -> pending s !! k = Some t ->
  backed (spawn (resume t o (set_pending (delete k (pending s)) s))).
Proof.
  intros H Hk.
  pose proof (countIf_delete isAwaitResume (pending s) k t Hk) as Hr.
  pose proof (countIf_delete isAwaitUserMedia (pending s) k t Hk) as Hu.
  assert (forall s0, trace s0 = trace s -> pending s0 = delete k (pending s) ->
    isDisconnectTask t = true ∨ o ≠ Fulfilled -> backed s0) as Hrest.
  { intros s0 Ht Hp Hcase. unfold backed, sessionsOpened, awaitingMicrophone,
      microphoneRequests, awaitingResume, contextsCreated in *.
    rewrite Ht, Hp. destruct H as (H1 & H2).
    destruct (isAwaitResume t), (isAwaitUserMedia t); lia. }
  destruct t; simpl.
  - destruct o as [|message]; simpl.
    + count_effects. simpl in *. lia.
    + apply backed_connect_catch. apply Hrest; [done..|by right].
  - destruct o as [|message]; simpl.
    + count_effects. simpl in *. lia.
    + apply backed_connect_catch. apply Hrest; [done..|by right].
  - apply backed_disconnect_stopTracks. apply Hrest; [done..|by left].
  - destruct o as [|message]; simpl.
    + count_effects. simpl in *. lia.
    + count_effects. simpl in *. lia.
Qed.

Lemma backed_onmessage msg s : backed s -> backed (onmessage msg s).
Proof.
  assert (forall rl txt isFinal s0, backed s0 -> backed (updateMessage rl txt isFinal s0))
    as Hu.
  { intros rl txt isFinal s0 H.
    destruct (updateMessage_sameSession rl txt isFinal s0) as (Hs & _).
    destruct Hs as (_ & _ & _ & _ & _ & _ & _ & _ & _ & Ht & Hp).
    unfold backed, sessionsOpened, awaitingMicrophone, microphoneRequests,
      awaitingResume, contextsCreated in *. by rewrite Ht, Hp. }
  assert (forall r v s0, backed s0 -> backed (set_buffer r v s0)) as Hb
    by (by intros [] v s0 H).
  assert (forall r tr s0, backed s0 -> backed (onTranscription r tr s0)) as Htr.
  { intros r tr s0 H. unfold onTranscription. destruct tr as [[[txt|]]|]; [|done..].
    destruct (truthy txt); [|done]. by apply Hu, Hb. }
  assert (forall r s0, backed s0 -> backed (commitTurn r s0)) as Hct.
  { intros r s0 H. unfold commitTurn. destruct (truthy _); [|done]. by apply Hb, Hu. }
  intros H. unfold onmessage. destruct (serverContent msg) as [sc|]; [|done].
  assert (backed (if turnComplete sc
                  then onTurnComplete (onTranscription model (outputTranscription sc)
                         (onTranscription user (inputTranscription sc) s))
                  else onTranscription model (outputTranscription sc)
                         (onTranscription user (inputTranscription sc) s))) as H3.
  { destruct (turnComplete sc); [unfold onTurnComplete|]; auto. }
  destruct (interrupted sc); [|done].
  unfold onInterrupted. destruct (truthy _); [|done].
  by apply (Hb model), Hu.
Qed.

Lemma backed_step ev s s' : backed s -> step ev s = Some s' -> backed s'.
Proof.
  intros H. destruct ev as [env| |isoNow|k o| |msg| |message]; simpl.
  - intros [= <-]. by apply backed_connect.
  - intros [= <-]. by apply backed_disconnect.
  - intros [= <-]. unfold downloadTranscript.
    destruct (messages s); [done|]. count_effects; lia.
  - destruct (pending s !! k) as [t|] eqn:Hk; [|done]. intros [= <-].
    by apply backed_resume.
  - destruct (sessionOpened s); [|done]. intros [= <-]. unfold onopen. simpl.
    destruct (inputContextRef s); count_effects; lia.
  - destruct (sessionOpened s); [|done]. intros [= <-]. by apply backed_onmessage.
  - destruct (sessionOpened s); [|done]. by intros [= <-].
  - destruct (sessionOpened s); [|done]. intros [= <-]. unfold onerror.
    apply backed_disconnect. count_effects; lia.
Qed.

(** A session is opened only on a granted microphone request, and a
    microphone is requested only on a created audio context: in every
    reachable state there are at most as many sessions as microphone
    requests, and at most as many requests as contexts, the calls of
    [connect] still waiting counted in. *)
Theorem sessions_need_microphone apiKey e evs s :
  run evs (mount apiKey e) = Some s ->
  (sessionsOpened s + awaitingMicrophone s <= microphoneRequests s)%nat ∧
  (microphoneRequests s + awaitingResume s <= contextsCreated s)%nat.
Proof.
  assert (backed (mount apiKey e)) as H0.
  { unfold mount, initAI. destruct (truthy_opt apiKey); count_effects; lia. }
  revert H0. generalize (mount apiKey e). clear apiKey e.
  induction evs as [|ev evs IH]; intros s0 H0; simpl.
  - by intros [= <-].
  - destruct (step ev s0) as [s1|] eqn:Hs; [|done].
    apply IH. by eapply backed_step.
Qed.

Lemma sessions_need_microphone_witness :
  sessionsOpened exampleLater = 1%nat ∧
  (sessionsOpened exampleLater <= microphoneRequests exampleLater)%nat.
Proof.
  split; [evaluated|].
  destruct (sessions_need_microphone exampleKey exampleEntropy
              (exampleFirstTurn ++ exampleLaterEvents) exampleLater) as (H & _);
    [evaluated|].
  lia.
Defined.

(** When the microphone is refused, [connect] ends without opening a
    session: from a call with a client, whose context was created and is
    running, the rejection of [getUserMedia] shows the message of the
    failure, puts the component offline, starts a [disconnect] that closes
    the context just created, and leaves the session reference and the
    transcript alone. *)
Theorem microphone_refused (message : option jsstring) (s : State) :
  aiRef s ≠ None ->
  exists s1 h,
    connect (mkConnectEnv None false) s = Await ConnectAwaitUserMedia s1 ∧
    inputContextRef s1 = Some h ∧
    trace s1 = trace s ++ [SetError None; NewAudioContext h; GetUserMedia] ∧
    forall s2, inputContextRef s2 ≠ None ->
      exists s3, connect_afterUserMedia (Rejected message) s2 = Done s3 ∧
        error s3 = message ∧ isConnected s3 = false ∧
        trace s3 = trace s2 ++ [SetError message; ContextClose] ∧
        pending s3 = pending s2 ++ [DisconnectAwaitContextClose] ∧
        sessionRef s3 = sessionRef s2 ∧ messages s3 = messages s2 ∧
        sessionsOpened s3 = sessionsOpened s2.
Proof.
  intros Hai. unfold connect. cbv zeta.
  destruct (aiRef s) eqn:E; [|done]. simpl.
  eexists _, _. split_and!; [done|done|simpl; by rewrite <- !app_assoc|].
  intros s2 Hctx. unfold connect_afterUserMedia, connect_catch, disconnect.
  cbv zeta. simpl. destruct (inputContextRef s2) eqn:E2; [|done].
  eexists. split; [done|]. simpl. split_and!; try done.
  - by rewrite <- !app_assoc.
  - unfold sessionsOpened. simpl. rewrite !countIf_app. unfold countIf. simpl. lia.
Qed.

Lemma microphone_refused_witness :
  aiRef (mount exampleKey exampleEntropy) ≠ None ∧
  inputContextRef exampleOpen ≠ None ∧
  exists s3,
    connect_afterUserMedia (Rejected (Some (lit "Permission denied"))) exampleOpen
    = Done s3 ∧
    error s3 = Some (lit "Permission denied") ∧ isConnected s3 = false ∧
    sessionRef s3 = sessionRef exampleOpen ∧ messages s3 = messages exampleOpen.
Proof.
  assert (aiRef (mount exampleKey exampleEntropy) ≠ None) as H by done.
  assert (inputContextRef exampleOpen ≠ None) as H' by evaluated.
  split; [exact H|]. split; [exact H'|].
  destruct (microphone_refused (Some (lit "Permission denied"))
              (mount exampleKey exampleEntropy) H) as (s1 & h & _ & _ & _ & K).
  destruct (K exampleOpen H') as (s3 & E1 & E2 & E3 & _ & _ & E4 & E5 & _).
  exists s3. split_and!; assumption.
Defined.

Lemma releasing_closeSession s : releasing (disconnect_closeSession s).
Proof. unfold disconnect_closeSession. by destruct (sessionRef s) eqn:E. Qed.

Lemma releasing_disconnect s : releasing (disconnect s).
Proof.
  unfold disconnect. cbv zeta.
  destruct (inputContextRef (setIsConnected false s)); [done|].
  apply releasing_closeSession.
Qed.

Lemma releasing_completes p s' : releasing p -> completes p s' -> sessionRef s' = None.
Proof.
  intros Hp Hc. induction Hc as [s|t s evs s1 o s' Hr Hc IH]; [exact Hp|].
  apply IH. destruct t; simpl in *; try done.
  - apply releasing_closeSession.
  - by destruct o.
Qed.

(** A call of [disconnect] that runs to its end leaves no session in
    [sessionRef], whatever was stored there while the call was suspended. *)
Theorem disconnect_releases_session (s s' : State) :
  completes (disconnect s) s' -> sessionRef s' = None.
Proof. apply releasing_completes, releasing_disconnect. Qed.

Lemma disconnect_releases_session_witness :
  sessionRef exampleErrored = Some 3%nat ∧ sessionRef exampleDisconnected = None.
Proof.
  split; [evaluated|].
  apply (disconnect_releases_session exampleErrored exampleDisconnected).
  eapply (completes_await _ _
    [Resume 0 Fulfilled; OnMessage (fragmentMsg user (lit "!"))] _ Fulfilled);
    [vm_compute; reflexivity|].
  eapply (completes_await _ _ [OnClose] _ Fulfilled);
    [vm_compute; reflexivity|].
  vm_compute. apply completes_done.
Defined.

Lemma connect_frame env s :
  aiRef (stateOf (connect env s)) = aiRef s ∧
  (inputContextRef s ≠ None -> inputContextRef (stateOf (connect env s)) ≠ None).
Proof.
  unfold connect. cbv zeta. destruct (aiRef s) eqn:E; [|done].
  destruct (constructorThrows env) as [message|].
  - unfold connect_catch. simpl.
    destruct (spawn_frame (disconnect (setError message (setError None s))))
      as (_ & _ & -> & -> & _).
    destruct (disconnect_frame (setError message (setError None s)))
      as (_ & _ & -> & -> & _).
    done.
  - by destruct (startsSuspended env).
Qed.

Lemma connect_catch_frame message s :
  aiRef (stateOf (connect_catch message s)) = aiRef s ∧
  inputContextRef (stateOf (connect_catch message s)) = inputContextRef s.
Proof.
  unfold connect_catch. simpl.
  destruct (spawn_frame (disconnect (setError message s))) as (_ & _ & -> & -> & _).
  by destruct (disconnect_frame (setError message s)) as (_ & _ & -> & -> & _).
Qed.

Lemma resume_frame t o s :
  aiRef (stateOf (resume t o s)) = aiRef s ∧
  inputContextRef (stateOf (resume t o s)) = inputContextRef s.
Proof.
  destruct t; simpl.
  - destruct o; [done|apply connect_catch_frame].
  - destruct o; [done|apply connect_catch_frame].
  - by destruct (disconnect_stopTracks_frame s) as (_ & _ & -> & -> & _).
  - by destruct o.
Qed.

Lemma onmessage_sameSession msg s : sameSession s (onmessage msg s).
Proof.
  assert (forall s0, sameSession s0 s0) as Hrefl by done.
  assert (forall s1 s2 s3, sameSession s1 s2 -> sameSession s2 s3 -> sameSession s1 s3)
    as Htrans.
  { unfold sameSession. intros s1 s2 s3 H12 H23.
    destruct H12 as (?&?&?&?&?&?&?&?&?&?&?), H23 as (?&?&?&?&?&?&?&?&?&?&?).
    split_and!; congruence. }
  assert (forall r v s0, sameSession s0 (set_buffer r v s0)) as Hb by (by intros []).
  assert (forall rl txt f s0, sameSession s0 (updateMessage rl txt f s0)) as Hu
    by (intros; apply updateMessage_sameSession).
  assert (forall r tr s0, sameSession s0 (onTranscription r tr s0)) as Htr.
  { intros r tr s0. unfold onTranscription. destruct tr as [[[txt|]]|]; [|done..].
    destruct (truthy txt); [|done]. eauto. }
  assert (forall r s0, sameSession s0 (commitTurn r s0)) as Hct.
  { intros r s0. unfold commitTurn. destruct (truthy _); [|done]. eauto. }
  unfold onmessage. destruct (serverContent msg) as [sc|]; [|done].
  set (s1 := onTranscription user (inputTranscription sc) s).
  set (s2 := onTranscription model (outputTranscription sc) s1).
  set (s3 := if turnComplete sc then onTurnComplete s2 else s2).
  assert (sameSession s s3) as H3.
  { apply (Htrans s s1); [apply Htr|]. apply (Htrans s1 s2); [apply Htr|].
    unfold s3. destruct (turnComplete sc); [|apply Hrefl].
    unfold onTurnComplete. eauto. }
  destruct (interrupted sc); [|exact H3]. apply (Htrans s s3); [exact H3|].
  unfold onInterrupted. destruct (truthy _); [|apply Hrefl].
  eapply Htrans; [apply Hu|apply (Hb model)].
Qed.

Lemma step_refs ev s s' :
  step ev s = Some s' ->
  aiRef s' = aiRef s ∧ (inputContextRef s ≠ None -> inputContextRef s' ≠ None).
Proof.
  destruct ev as [env| |isoNow|k o| |msg| |message]; simpl.
  - intros [= <-]. destruct (spawn_frame (connect env s)) as (_ & _ & -> & -> & _).
    apply connect_frame.
  - intros [= <-]. destruct (spawn_frame (disconnect s)) as (_ & _ & -> & -> & _).
    by destruct (disconnect_frame s) as (_ & _ & -> & -> & _).
  - intros [= <-]. unfold downloadTranscript. by destruct (messages s).
  - destruct (pending s !! k) as [t|]; [|done]. intros [= <-].
    destruct (spawn_frame (resume t o (set_pending (delete k (pending s)) s)))
      as (_ & _ & -> & -> & _).
    by destruct (resume_frame t o (set_pending (delete k (pending s)) s)) as (-> & ->).
  - destruct (sessionOpened s); [|done]. intros [= <-]. unfold onopen. simpl.
    destruct (inputContextRef s) eqn:E; simpl; by rewrite ?E.
  - destruct (sessionOpened s); [|done]. intros [= <-].
    destruct (onmessage_sameSession msg s) as (_ & _ & -> & _ & -> & _). done.
  - destruct (sessionOpened s); [|done]. by intros [= <-].
  - destruct (sessionOpened s); [|done]. intros [= <-]. unfold onerror.
    set (s0 := setError _ s).
    destruct (spawn_frame (disconnect s0)) as (_ & _ & -> & -> & _).
    by destruct (disconnect_frame s0) as (_ & _ & -> & -> & _).
Qed.

(** The client and the audio context are never let go: over every run
    [aiRef] stays what the mount made it, and [inputContextRef], once set
    by a call of [connect], is never cleared; so every later call of
    [disconnect] calls [close()] on a context and is suspended there. *)
Theorem refs_never_cleared evs s s' :
  run evs s = Some s' ->
  aiRef s' = aiRef s ∧
  (inputContextRef s ≠ None ->
     inputContextRef s' ≠ None ∧
     exists s1, disconnect s' = Await DisconnectAwaitContextClose s1).
Proof.
  intros Hr.
  assert (aiRef s' = aiRef s ∧
          (inputContextRef s ≠ None -> inputContextRef s' ≠ None)) as (Ha & Hc).
  { revert s Hr. induction evs as [|ev evs IH]; intros s; simpl.
    - by intros [= <-].
    - destruct (step ev s) as [s1|] eqn:Hs; [|done]. intros Hr.
      destruct (step_refs ev s s1 Hs) as (Ha1 & Hc1).
      destruct (IH s1 Hr) as (Ha2 & Hc2). split; [congruence|auto]. }
  split; [exact Ha|]. intros Hctx. split; [auto|].
  unfold disconnect. cbv zeta. simpl.
  destruct (inputContextRef s') eqn:E; [by eexists|]. by apply Hc in Hctx.
Qed.

Lemma refs_never_cleared_witness :
  inputContextRef exampleAfterTurn ≠ None ∧
  aiRef exampleLater = exampleKey ∧ inputContextRef exampleLater ≠ None.
Proof.
  assert (inputContextRef exampleAfterTurn ≠ None) as H by (by vm_compute).
  split; [exact H|].
  destruct (refs_never_cleared exampleLaterEvents exampleAfterTurn exampleLater)
    as (Ha & Hc); [evaluated|].
  split; [rewrite Ha; evaluated|]. exact (proj1 (Hc H)).
Defined.

(** * The name of the exported file *)

Lemma replaceColons_no_colon s : (58 ∉ replaceColons s).
Proof.
  unfold replaceColons. intros (d & Hd & _)%list_elem_of_fmap.
  destruct (d =? 58) eqn:E; [done|]. apply N.eqb_neq in E. congruence.
Qed.

(** The file name of the export never holds a colon, whatever the
    clock returns: it is "transcript_", then the first 19 characters of
    the timestamp with every colon replaced by a hyphen, then ".txt". *)
Theorem transcript_name_safe (isoNow : jsstring) (s : State) :
  (58 ∉ transcriptName isoNow) ∧
  (exists stamp,
     transcriptName isoNow = lit "transcript_" ++ stamp ++ lit ".txt" ∧
     length stamp = min 19 (length isoNow) ∧
     forall i c, stamp !! i = Some c ->
       exists d, isoNow !! i = Some d ∧ c = if d =? 58 then 45 else d) ∧
  (trace (downloadTranscript isoNow s) = trace s ∨
   exists content,
     trace (downloadTranscript isoNow s)
     = trace s ++ [Download content (transcriptName isoNow)]).
Proof.
  split_and!.
  - assert (58 ∉ lit "transcript_") as Hhead
      by (apply (bool_decide_unpack _); by vm_compute).
    assert (58 ∉ lit ".txt") as Htail
      by (apply (bool_decide_unpack _); by vm_compute).
    unfold transcriptName. rewrite !elem_of_app. intros [H|[H|H]]; [done| |done].
    by apply replaceColons_no_colon in H.
  - exists (replaceColons (slice0 19 isoNow)). split_and!; [done|..].
    + unfold replaceColons, slice0. by rewrite length_fmap, length_take.
    + intros i c. unfold replaceColons, slice0. rewrite list_lookup_fmap.
      destruct (take 19 isoNow !! i) as [d|] eqn:Hd; [|done].
      intros [= <-]. exists d. split; [|done].
      apply lookup_take_Some in Hd. tauto.
  - unfold downloadTranscript. destruct (messages s); [by left|].
    right. by eexists.
Qed.

Lemma transcript_name_safe_witness :
  transcriptName (lit "2025-01-02T03:04:05.678Z")
  = lit "transcript_2025-01-02T03-04-05.txt" ∧
  (58 ∉ transcriptName (lit "2025-01-02T03:04:05.678Z")).
Proof.
  split; [evaluated|].
  exact (proj1 (transcript_name_safe (lit "2025-01-02T03:04:05.678Z") exampleOpen)).
Defined.

(** * The visualizer *)

Section VisualizerFacts.
Import QArith Lqa.
Import Visualizer.


Lemma bars_lookup barWidth x data i :
  bars barWidth x data !! i
  = (fun d => RoundRect (xAt barWidth x i) ((height - sample d / 2) / 2)%Q
               barWidth (sample d / 2)%Q) <$> data !! i.
Proof.
  revert x i. induction data as [|d data IH]; intros x [|i]; simpl; done.
Qed.

(** Every bar is centred on the middle line of the canvas and is half
    its sample high; it lies within the height of the canvas exactly when
    the sample is at most 200, and sticks out above and below otherwise. *)
Theorem bars_centred barWidth x data i op :
  bars barWidth x data !! i = Some op ->
  exists d y h,
    data !! i = Some d ∧ op = RoundRect (xAt barWidth x i) y barWidth h ∧
    (h == sample d / 2)%Q ∧ (y + h / 2 == height / 2)%Q ∧
    ((0 <= y)%Q <-> (d <= 200)%N) ∧ ((y + h <= height)%Q <-> (d <= 200)%N).
Proof.
  rewrite bars_lookup. destruct (data !! i) as [d|]; [|done]. intros [= <-].
  exists d, ((height - sample d / 2) / 2)%Q, (sample d / 2)%Q.
  assert ((sample d <= 200)%Q <-> (d <= 200)%N) as Hd.
  { unfold sample. rewrite <- (Zle_Qle _ 200). lia. }
  unfold height. split_and!; [done|done|reflexivity|field|..].
  - rewrite <- Hd.
    assert ((100 - sample d / 2) / 2 == 50 - sample d * (1 # 4))%Q as -> by field.
    split; intros H; lra.
  - rewrite <- Hd.
    assert ((100 - sample d / 2) / 2 + sample d / 2 == 50 + sample d * (1 # 4))%Q
      as -> by field.
    split; intros H; lra.
Qed.

Lemma bars_centred_witness :
  bars (barWidthOf 4) 0 [0%N; 100%N; 200%N; 255%N] !! 3%nat
  = Some (RoundRect (xAt (barWidthOf 4) 0 3)
            ((height - sample 255 / 2) / 2) (barWidthOf 4) (sample 255 / 2)) ∧
  ¬ (0 <= (height - sample 255 / 2) / 2)%Q.
Proof.
  split; [reflexivity|].
  destruct (bars_centred (barWidthOf 4) 0 [0%N; 100%N; 200%N; 255%N] 3%nat
              (RoundRect (xAt (barWidthOf 4) 0 3)
                 ((height - sample 255 / 2) / 2) (barWidthOf 4) (sample 255 / 2))
              eq_refl) as (d & y & h & Hd & Hop & _ & _ & Hy & _).
  injection Hd as Hd. injection Hop as Hy' Hh'. subst d y h.
  intros H. apply Hy in H. exact (H eq_refl).
Defined.



Lemma runDraw_tidy p m :
  canvasReady m = true -> scheduled m = [] -> p = props m -> tidy (runDraw p m).
Proof.
  intros Hr Hs ->. unfold runDraw, tidy.
  destruct (snd (draw (props m) [])) eqn:E; simpl; [|by left].
  right. by rewrite Hs.
Qed.

Lemma effect_tidy m : scheduled m = [] -> tidy (effect m).
Proof.
  intros Hs. unfold effect. destruct (canvasReady m) eqn:Hr; [|by left].
  by apply runDraw_tidy.
Qed.

Lemma cleanup_tidy m : tidy m -> scheduled (cleanup m) = [].
Proof.
  intros [Hs|(Hr & Hs & _)]; unfold cleanup.
  - destruct (canvasReady m); simpl; by rewrite ?Hs.
  - rewrite Hr. simpl. rewrite Hs. by rewrite filter_cons_False, filter_nil by (simpl; auto).
Qed.

Lemma step_tidy ev m : tidy m -> tidy (Visualizer.step ev m).
Proof.
  intros Ht. destruct ev as [p|h|]; simpl.
  - apply effect_tidy. simpl. by apply cleanup_tidy.
  - destruct Ht as [Hs|(Hr & Hs & Hd)].
    + rewrite Hs. simpl. by left.
    + rewrite Hs. simpl. destruct (decide (animationRef m = h)) as [_|_]; simpl.
      * by apply runDraw_tidy.
      * right. by rewrite Hs.
  - left. by apply cleanup_tidy.
Qed.

Lemma run_tidy evs m : tidy m -> tidy (Visualizer.run evs m).
Proof.
  revert m. induction evs as [|ev evs IH]; intros m Ht; [done|].
  apply IH. by apply step_tidy.
Qed.

(** The animation loop never leaks a frame: whatever the props become
    and whichever frames fire, at most one frame is scheduled at a time,
    the one [animationRef] names, and it runs the [draw] of the current
    props; none is scheduled while the component is inactive or has no
    analyser; and none is left after the unmount. *)
Theorem visualizer_never_leaks (p : Props) (ready : bool) (evs : list Visualizer.Event) :
  tidy (Visualizer.run evs (mountWith p ready)) ∧
  (snd (draw (props (Visualizer.run evs (mountWith p ready))) []) = false ->
   scheduled (Visualizer.run evs (mountWith p ready)) = []) ∧
  scheduled (Visualizer.run (evs ++ [Unmount]) (mountWith p ready)) = [].
Proof.
  assert (tidy (Visualizer.run evs (mountWith p ready))) as Ht.
  { apply run_tidy. unfold mountWith. by apply effect_tidy. }
  split_and!; [exact Ht| |].
  - intros Hd. destruct Ht as [Hs|(_ & _ & Hd')]; [done|congruence].
  - unfold Visualizer.run. rewrite foldl_app. simpl. by apply cleanup_tidy.
Qed.

Lemma visualizer_never_leaks_witness :
  scheduled (Visualizer.run [Frame 1; Update (mkProps false (Some 128%nat))]
               (mountWith (mkProps true (Some 128%nat)) true)) = [].
Proof.
  apply (proj1 (proj2 (visualizer_never_leaks (mkProps true (Some 128%nat)) true
           [Frame 1; Update (mkProps false (Some 128%nat))]))).
  reflexivity.
Defined.

(** While [App] is offline its visualizer stands still: once it has the
    props [App] hands it, it paints the flat line through the middle of the
    canvas only, and no frame is scheduled, whatever was going on before. *)
Theorem offline_visualizer_is_still (s : State) (p : Props) (ready : bool)
    (evs : list Visualizer.Event) (data : list N) :
  isConnected s = false ->
  draw (visualizerProps s) data
  = ([ClearRect; Line 0 (height / 2) width (height / 2)], false) ∧
  (height / 2 == 50)%Q ∧
  scheduled (Visualizer.run (evs ++ [Update (visualizerProps s)]) (mountWith p ready))
  = [].
Proof.
  intros H.
  assert (forall d, draw (visualizerProps s) d
    = ([ClearRect; Line 0 (height / 2) width (height / 2)], false)) as Hd.
  { intros d. unfold draw, visualizerProps. simpl. by rewrite H. }
  split_and!; [apply Hd|reflexivity|].
  assert (tidy (Visualizer.run (evs ++ [Update (visualizerProps s)])
                  (mountWith p ready))) as Ht.
  { apply run_tidy. unfold mountWith. by apply effect_tidy. }
  destruct Ht as [Hs|(_ & _ & Hsnd)]; [exact Hs|].
  unfold Visualizer.run in Hsnd. rewrite foldl_app in Hsnd. simpl in Hsnd.
  unfold effect in Hsnd. simpl in Hsnd.
  set (m := foldl _ _ evs) in Hsnd.
  destruct (canvasReady (cleanup m)); simpl in Hsnd.
  - unfold runDraw in Hsnd. simpl in Hsnd. rewrite (Hd []) in Hsnd. simpl in Hsnd.
    by rewrite (Hd []) in Hsnd.
  - by rewrite (Hd []) in Hsnd.
Qed.

Lemma offline_visualizer_is_still_witness :
  scheduled (Visualizer.run
    [Frame 1; Frame 2; Update (visualizerProps exampleLater)]
    (mountWith (mkProps true (Some 128%nat)) true)) = [] ∧
  scheduled (Visualizer.run [Frame 1; Frame 2]
    (mountWith (mkProps true (Some 128%nat)) true))
  = [(3%nat, mkProps true (Some 128%nat))].
Proof.
  split; [|reflexivity].
  apply (offline_visualizer_is_still exampleLater (mkProps true (Some 128%nat)) true
           [Frame 1; Frame 2] []).
  evaluated.
Defined.

End VisualizerFacts.
